(** * The tableau Simplex solver of [services/simplexLogic.ts]

    A shallow embedding of [solveSimplex] and of the data contracts of
    [types.ts], followed by the properties of the solver.

    Numbers.  A TypeScript [number] is modelled by [num]: an exact rational
    ([Fin q]) or [NaN].  [NaN] also stands for [undefined], the value of an
    array read past the end: every operation the solver applies to a cell
    (comparison, division, subtraction, multiplication, negation, the JSON
    snapshot) treats the two alike.  Rounding, overflow, signed zero and the
    infinities of IEEE arithmetic are outside the model; the only infinity
    the solver names, the initial [minRatio], is the constructor [Infinity]
    of [bound]. *)

From Stdlib Require Import QArith String DecimalString DecimalNat DecimalZ Lqa.
From stdpp Require Import base list.

Local Open Scope nat_scope.

(** ** Numbers *)

Inductive num : Type :=
  | Fin (q : Q)
  | NaN.

(** [a < b]; false as soon as one side is [NaN]. *)
Definition nlt (a b : num) : bool :=
  match a, b with
  | Fin p, Fin q => negb (Qle_bool q p)
  | _, _ => false
  end.

(** [a > b]. *)
Definition ngt (a b : num) : bool := nlt b a.

(** [-a]. *)
Definition nneg (a : num) : num :=
  match a with
  | Fin q => Fin (- q)
  | NaN => NaN
  end.

(** [a - b]. *)
Definition nsub (a b : num) : num :=
  match a, b with
  | Fin p, Fin q => Fin (p - q)
  | _, _ => NaN
  end.

(** [a * b]. *)
Definition nmul (a b : num) : num :=
  match a, b with
  | Fin p, Fin q => Fin (p * q)
  | _, _ => NaN
  end.

(** [a / b].  The solver divides only by an entry it has tested to be
    strictly positive: the ratio test guards its own division, and the
    pivot element is the entry of the row the ratio test chose (lemma
    [find_pivot_row_some]).  The quotient by zero, an infinity or NaN in
    JavaScript, is left as [NaN]. *)
Definition ndiv (a b : num) : num :=
  match a, b with
  | Fin p, Fin q => if Qeq_bool q 0 then NaN else Fin (p / q)
  | _, _ => NaN
  end.

(** The running minimum of the ratio test: [Infinity] until a first ratio
    is accepted. *)
Inductive bound : Type :=
  | Infinity
  | Below (x : num).

(** [ratio < minRatio]: any rational is below [Infinity], [NaN] is not. *)
Definition lt_bound (ratio : num) (minRatio : bound) : bool :=
  match minRatio with
  | Infinity => match ratio with Fin _ => true | NaN => false end
  | Below x => nlt ratio x
  end.

(** Numeric equality of two cells ([===] on numbers). *)
Definition neq (a b : num) : bool :=
  match a, b with
  | Fin p, Fin q => Qeq_bool p q
  | _, _ => false
  end.

Definition is_fin (a : num) : bool :=
  match a with
  | Fin _ => true
  | NaN => false
  end.

(** ** Data contracts of [types.ts] *)

Inductive OptimizationType : Type := MAXIMIZE | MINIMIZE.

Inductive ConstraintType : Type := LESS_THAN_EQ | GREATER_THAN_EQ | EQUALS.

Module Constraint.
Record t : Type := mk {
  id : string;
  coefficients : list num;
  type : ConstraintType;
  rhs : num
}.
End Constraint.

Module LPModel.
Record t : Type := mk {
  type : OptimizationType;
  numVariables : nat;
  variableNames : list string;
  objectiveCoefficients : list num;
  constraints : list Constraint.t
}.
End LPModel.

Abbreviation Tableau := (list (list num)).

Module SimplexStep.
Record t : Type := mk {
  tableau : Tableau;
  pivotRow : option nat;
  pivotCol : option nat;
  basicVariables : list nat;
  description : string;
  isOptimal : bool
}.
End SimplexStep.

Inductive Status : Type := OPTIMAL | UNBOUNDED | INFEASIBLE.

Module SimplexResult.
Record t : Type := mk {
  optimalValue : option num;
  variableValues : list num;
  status : Status;
  steps : list SimplexStep.t
}.
End SimplexResult.

(** ** Arrays *)

(** [a[j]]: [undefined] past the end. *)
Definition arr_get (a : list num) (j : nat) : num := default NaN (a !! j).

(** [a[j] = v]: in place when [j] is an index of [a]; past the end
    JavaScript extends the array, leaving holes that read as [undefined]. *)
Definition arr_set (a : list num) (j : nat) (v : num) : list num :=
  if decide (j < length a) then <[j := v]> a
  else a ++ replicate (j - length a) NaN ++ [v].

(** [tableau[i][j]]. *)
Definition get (tableau : Tableau) (i j : nat) : num :=
  match tableau !! i with
  | Some row => arr_get row j
  | None => NaN
  end.

(** [tableau[i][j] = v].  Every row index the solver writes through is
    below [totalRows] (the loop bounds and [pivotRow < numConstraints]). *)
Definition set (tableau : Tableau) (i j : nat) (v : num) : Tableau :=
  alter (fun row => arr_set row j v) i tableau.

(** ** [solveSimplex] *)

Section Solver.

Variables numVariables numConstraints : nat.

(** [totalCols = numVariables + numConstraints + 1],
    [totalRows = numConstraints + 1]. *)
Definition totalCols : nat := numVariables + numConstraints + 1.
Definition totalRows : nat := numConstraints + 1.

(** [Array.from({ length: totalRows }, () => Array(totalCols).fill(0))]. *)
Definition zero_tableau : Tableau :=
  replicate totalRows (replicate totalCols (Fin 0)).

(** Body of the loop over the constraints: the coefficients, the slack
    1, the right-hand side, and the push onto [basicVariables]. *)
Definition fill_constraint (i : nat) (constraint : Constraint.t)
    (st : Tableau * list nat) : Tableau * list nat :=
  let '(tableau, basicVariables) := st in
  let tableau :=
    foldl (fun tableau j =>
             set tableau i j (arr_get (Constraint.coefficients constraint) j))
          tableau (seq 0 numVariables) in
  let tableau := set tableau i (numVariables + i) (Fin 1) in
  let tableau := set tableau i (totalCols - 1) (Constraint.rhs constraint) in
  (tableau, basicVariables ++ [numVariables + i]).

(** [for (let i = 0; i < numConstraints; i++)]; [constraints[i]] is
    always defined there. *)
Definition fill_constraints (constraints : list Constraint.t)
    (st : Tableau * list nat) : Tableau * list nat :=
  foldl (fun st i =>
           match constraints !! i with
           | Some constraint => fill_constraint i constraint st
           | None => st
           end)
        st (seq 0 numConstraints).

(** The objective row: [isMin ? coeff : -coeff] in each variable column. *)
Definition fill_objective (isMin : bool) (objectiveCoefficients : list num)
    (tableau : Tableau) : Tableau :=
  foldl (fun tableau j =>
           let coeff := arr_get objectiveCoefficients j in
           set tableau (totalRows - 1) j (if isMin then coeff else nneg coeff))
        tableau (seq 0 numVariables).

(** The entering column: the scan of the objective row for the most
    negative entry.  [None] is the sentinel [-1]. *)
Definition scan_step (lastRow : list num) (st : option nat * num) (j : nat)
    : option nat * num :=
  let '(pivotCol, minValue) := st in
  if nlt (arr_get lastRow j) minValue
  then (Some j, arr_get lastRow j)
  else (pivotCol, minValue).

Definition scan_objective (lastRow : list num) : option nat * num :=
  foldl (scan_step lastRow) (None, Fin 0) (seq 0 (totalCols - 1)).

Definition find_pivot_col (tableau : Tableau) : option nat :=
  (scan_objective (default [] (tableau !! (totalRows - 1)))).1.

(** The ratio test over the constraint rows.  [None] is the sentinel
    [-1]. *)
Definition ratio_step (tableau : Tableau) (pivotCol : nat)
    (st : option nat * bound) (i : nat) : option nat * bound :=
  let '(pivotRow, minRatio) := st in
  let rhs := get tableau i (totalCols - 1) in
  let coeff := get tableau i pivotCol in
  if ngt coeff (Fin 0) then
    let ratio := ndiv rhs coeff in
    if lt_bound ratio minRatio then (Some i, Below ratio)
    else (pivotRow, minRatio)
  else (pivotRow, minRatio).

Definition ratio_scan (tableau : Tableau) (pivotCol : nat)
    : option nat * bound :=
  foldl (ratio_step tableau pivotCol) (None, Infinity)
        (seq 0 numConstraints).

Definition find_pivot_row (tableau : Tableau) (pivotCol : nat) : option nat :=
  (ratio_scan tableau pivotCol).1.

(** [tableau[pivotRow][j] /= pivotElement] for every column. *)
Definition normalize_row (pivotRow : nat) (pivotElement : num)
    (tableau : Tableau) : Tableau :=
  foldl (fun tableau j =>
           set tableau pivotRow j (ndiv (get tableau pivotRow j) pivotElement))
        tableau (seq 0 totalCols).

(** [tableau[i][j] -= factor * tableau[pivotRow][j]] for every column. *)
Definition eliminate_row (pivotRow i : nat) (factor : num)
    (tableau : Tableau) : Tableau :=
  foldl (fun tableau j =>
           set tableau i j
               (nsub (get tableau i j) (nmul factor (get tableau pivotRow j))))
        tableau (seq 0 totalCols).

(** The elimination loop over all rows but the pivot row. *)
Definition eliminate (pivotRow pivotCol : nat) (tableau : Tableau) : Tableau :=
  foldl (fun tableau i =>
           if decide (i ≠ pivotRow)
           then eliminate_row pivotRow i (get tableau i pivotCol) tableau
           else tableau)
        tableau (seq 0 totalRows).

(** The pivot operation on the tableau. *)
Definition pivot (pivotRow pivotCol : nat) (tableau : Tableau) : Tableau :=
  let pivotElement := get tableau pivotRow pivotCol in
  eliminate pivotRow pivotCol (normalize_row pivotRow pivotElement tableau).

(** Decimal rendering of the integers spliced into the description. *)
Definition show_nat (n : nat) : string :=
  NilZero.string_of_uint (Nat.to_uint n).
Definition show_Z (z : Z) : string :=
  NilZero.string_of_int (Z.to_int z).

Definition optimal_description : string :=
  "Optimality condition satisfied. No negative coefficients in objective row.".

Definition pivot_description (pivotRow pivotCol : nat)
    (basicVariables : list nat) : string :=
  ("Pivot element at Row " ++ show_nat (pivotRow + 1)
   ++ ", Col " ++ show_nat (pivotCol + 1)
   ++ ". Entering: x" ++ show_nat (pivotCol + 1)
   ++ ". Leaving: s"
   ++ match basicVariables !! pivotRow with
      | Some b => show_Z (Z.of_nat b - Z.of_nat numVariables + 1)
      | None => "NaN"
      end
   ++ " (or var).")%string.

(** The variables of the [while] loop. *)
Record LoopState : Type := mkLoop {
  tableau : Tableau;
  basicVariables : list nat;
  steps : list SimplexStep.t
}.

(** How one pass through the loop body ends: [break] (optimal), [return]
    (unbounded), or the end of the body after a pivot. *)
Inductive Iteration : Type :=
  | Break (s : LoopState)
  | Return (r : SimplexResult.t)
  | Next (s : LoopState).

Definition optimal_step (s : LoopState) : SimplexStep.t :=
  SimplexStep.mk (tableau s) None None (basicVariables s)
                 optimal_description true.

Definition pivot_step (s : LoopState) (pivotRow pivotCol : nat)
    : SimplexStep.t :=
  SimplexStep.mk (tableau s) (Some pivotRow) (Some pivotCol)
                 (basicVariables s)
                 (pivot_description pivotRow pivotCol (basicVariables s))
                 false.

Definition unbounded_result (s : LoopState) : SimplexResult.t :=
  SimplexResult.mk None [] UNBOUNDED (steps s).

(** The loop body. *)
Definition iteration (s : LoopState) : Iteration :=
  match find_pivot_col (tableau s) with
  | None =>
      Break (mkLoop (tableau s) (basicVariables s)
                    (steps s ++ [optimal_step s]))
  | Some pivotCol =>
      match find_pivot_row (tableau s) pivotCol with
      | None => Return (unbounded_result s)
      | Some pivotRow =>
          Next (mkLoop (pivot pivotRow pivotCol (tableau s))
                       (<[pivotRow := pivotCol]> (basicVariables s))
                       (steps s ++ [pivot_step s pivotRow pivotCol]))
      end
  end.

(** [while (iterations < maxIterations)]: [remaining] is
    [maxIterations - iterations].  The loop ends with the state it falls
    out with ([inl]) or with the result it returns ([inr]). *)
Fixpoint while_loop (remaining : nat) (s : LoopState)
    : LoopState + SimplexResult.t :=
  match remaining with
  | 0 => inl s
  | S remaining =>
      match iteration s with
      | Break s' => inl s'
      | Return r => inr r
      | Next s' => while_loop remaining s'
      end
  end.

(** Solution extraction: the values of the basic decision variables. *)
Definition extract_values (tableau : Tableau) (basicVariables : list nat)
    : list num :=
  foldl (fun variableValues i =>
           match basicVariables !! i with
           | Some basicVarIndex =>
               if decide (basicVarIndex < numVariables)
               then arr_set variableValues basicVarIndex
                            (get tableau i (totalCols - 1))
               else variableValues
           | None => variableValues
           end)
        (replicate numVariables (Fin 0)) (seq 0 numConstraints).

(** The code after the loop. *)
Definition extract_solution (isMin : bool) (s : LoopState)
    : SimplexResult.t :=
  let variableValues := extract_values (tableau s) (basicVariables s) in
  let optimalValue := get (tableau s) (totalRows - 1) (totalCols - 1) in
  let optimalValue := if isMin then nneg optimalValue else optimalValue in
  SimplexResult.mk (Some optimalValue) variableValues OPTIMAL (steps s).

End Solver.

(** [const maxIterations = 100]. *)
Definition maxIterations : nat := 100.

(** [isMin = type === OptimizationType.MINIMIZE]. *)
Definition isMinimize (type : OptimizationType) : bool :=
  match type with
  | MINIMIZE => true
  | MAXIMIZE => false
  end.

(** The tableau and the basis the loop starts from. *)
Definition initial_tableau (model : LPModel.t) : Tableau * list nat :=
  let numVariables := LPModel.numVariables model in
  let constraints := LPModel.constraints model in
  let numConstraints := length constraints in
  let '(tableau, basicVariables) :=
    fill_constraints numVariables numConstraints constraints
                     (zero_tableau numVariables numConstraints, []) in
  (fill_objective numVariables numConstraints
                  (isMinimize (LPModel.type model))
                  (LPModel.objectiveCoefficients model) tableau,
   basicVariables).

(** The variables of the loop at its entry: [steps = []]. *)
Definition initial_state (model : LPModel.t) : LoopState :=
  let '(tableau, basicVariables) := initial_tableau model in
  mkLoop tableau basicVariables [].

(** [solveSimplex]: the loop, then either the result it returned or the
    solution extracted from the state it was left in.  [numVariables] is a
    count, a natural number. *)
Definition solveSimplex (model : LPModel.t) : SimplexResult.t :=
  let numVariables := LPModel.numVariables model in
  let numConstraints := length (LPModel.constraints model) in
  match while_loop numVariables numConstraints maxIterations
                   (initial_state model) with
  | inr result => result
  | inl s =>
      extract_solution numVariables numConstraints
                       (isMinimize (LPModel.type model)) s
  end.

(** ** The form of [App.tsx]

    The handlers of the component [App] that edit the model, as functions
    of the state they read and write: the model, the result shown and the
    explanation shown.  What a handler gets from outside is an argument:
    [Date.now()], the number [parseFloat] made of the text typed, the
    model or the text an AI call came back with. *)
Module App.

Record State : Type := mkState {
  model : LPModel.t;
  result : option SimplexResult.t;
  explanation : option string
}.

(** The state of the first render. *)
Definition initial : State :=
  mkState
    (LPModel.mk MAXIMIZE 2 ["X1"; "X2"]%string [Fin 10; Fin 20]
       [Constraint.mk "c1" [Fin 1; Fin 1] LESS_THAN_EQ (Fin 50);
        Constraint.mk "c2" [Fin 2; Fin 4] LESS_THAN_EQ (Fin 120)])
    None None.

(** [x || 0] on a number: 0 for the falsy [0], [NaN] and [undefined]. *)
Definition or_zero (a : num) : num :=
  match a with
  | Fin q => if Qeq_bool q 0 then Fin 0 else Fin q
  | NaN => Fin 0
  end.

(** [name || `X${i + 1}`] on a name that may be missing or empty. *)
Definition name_or_default (name : option string) (i : nat) : string :=
  match name with
  | Some s =>
      if (s =? "")%string then ("X" ++ show_nat (i + 1))%string else s
  | None => ("X" ++ show_nat (i + 1))%string
  end.

(** [Array.from({ length: newCount }, (_, i) => coefficients[i] || 0)]. *)
Definition resize (newCount : nat) (coefficients : list num) : list num :=
  (λ i, or_zero (arr_get coefficients i)) <$> seq 0 newCount.

Definition handleVariableCountChange (delta : Z) (st : State) : State :=
  let newCount :=
    Z.to_nat (Z.max 1 (Z.min 10
      (Z.of_nat (LPModel.numVariables (model st)) + delta))) in
  let variableNames :=
    (λ i, name_or_default (LPModel.variableNames (model st) !! i) i)
      <$> seq 0 newCount in
  let objectiveCoefficients :=
    resize newCount (LPModel.objectiveCoefficients (model st)) in
  let constraints :=
    (λ c, Constraint.mk (Constraint.id c)
            (resize newCount (Constraint.coefficients c))
            (Constraint.type c) (Constraint.rhs c))
      <$> LPModel.constraints (model st) in
  mkState
    (LPModel.mk (LPModel.type (model st)) newCount variableNames
                objectiveCoefficients constraints)
    None (explanation st).

(** [now] is [Date.now()]. *)
Definition addConstraint (now : Z) (st : State) : State :=
  let newConstraint :=
    Constraint.mk ("c-" ++ show_Z now)%string
      (replicate (LPModel.numVariables (model st)) (Fin 0))
      LESS_THAN_EQ (Fin 0) in
  mkState
    (LPModel.mk (LPModel.type (model st)) (LPModel.numVariables (model st))
       (LPModel.variableNames (model st))
       (LPModel.objectiveCoefficients (model st))
       (LPModel.constraints (model st) ++ [newConstraint]))
    None (explanation st).

Definition removeConstraint (id : string) (st : State) : State :=
  mkState
    (LPModel.mk (LPModel.type (model st)) (LPModel.numVariables (model st))
       (LPModel.variableNames (model st))
       (LPModel.objectiveCoefficients (model st))
       (List.filter (λ c, negb (Constraint.id c =? id)%string)
                    (LPModel.constraints (model st))))
    None (explanation st).

(** The well-typed calls of [updateConstraint (id, field, value, index)]:
    field [coefficients] with an index, field [rhs], and the other fields
    with a value of their type.  [parsed] is [parseFloat(value)]. *)
Inductive Edit : Type :=
  | SetCoefficient (index : nat) (parsed : num)
  | SetRhs (parsed : num)
  | SetId (value : string)
  | SetCoefficients (value : list num)
  | SetType (value : ConstraintType).

Definition edit_constraint (edit : Edit) (c : Constraint.t) : Constraint.t :=
  match edit with
  | SetCoefficient index parsed =>
      Constraint.mk (Constraint.id c)
        (arr_set (Constraint.coefficients c) index (or_zero parsed))
        (Constraint.type c) (Constraint.rhs c)
  | SetRhs parsed =>
      Constraint.mk (Constraint.id c) (Constraint.coefficients c)
        (Constraint.type c) (or_zero parsed)
  | SetId value =>
      Constraint.mk value (Constraint.coefficients c)
        (Constraint.type c) (Constraint.rhs c)
  | SetCoefficients value =>
      Constraint.mk (Constraint.id c) value
        (Constraint.type c) (Constraint.rhs c)
  | SetType value =>
      Constraint.mk (Constraint.id c) (Constraint.coefficients c)
        value (Constraint.rhs c)
  end.

Definition updateConstraint (id : string) (edit : Edit) (st : State)
    : State :=
  mkState
    (LPModel.mk (LPModel.type (model st)) (LPModel.numVariables (model st))
       (LPModel.variableNames (model st))
       (LPModel.objectiveCoefficients (model st))
       ((λ c, if negb (Constraint.id c =? id)%string then c
              else edit_constraint edit c)
          <$> LPModel.constraints (model st)))
    None (explanation st).

(** [parsed] is [parseFloat(value)]. *)
Definition updateObjective (index : nat) (parsed : num) (st : State)
    : State :=
  mkState
    (LPModel.mk (LPModel.type (model st)) (LPModel.numVariables (model st))
       (LPModel.variableNames (model st))
       (arr_set (LPModel.objectiveCoefficients (model st)) index
                (or_zero parsed))
       (LPModel.constraints (model st)))
    None (explanation st).

(** The direction select: [setModel({...model, type})], and nothing
    else. *)
Definition setDirection (type : OptimizationType) (st : State) : State :=
  mkState
    (LPModel.mk type (LPModel.numVariables (model st))
       (LPModel.variableNames (model st))
       (LPModel.objectiveCoefficients (model st))
       (LPModel.constraints (model st)))
    (result st) (explanation st).

Definition handleSolve (st : State) : State :=
  mkState (model st) (Some (solveSimplex (model st))) None.

(** [parsed] is what [parseNaturalLanguageProblem] resolved to; a blank
    prompt leaves the state as a failed parse does. *)
Definition handleAiParse (parsed : option LPModel.t) (st : State) : State :=
  match parsed with
  | Some parsedModel => mkState parsedModel None (explanation st)
  | None => st
  end.

(** [text] is what [explainSolutionWithGemini] resolved to. *)
Definition handleExplain (text : option string) (st : State) : State :=
  match result st with
  | None => st
  | Some _ => mkState (model st) (result st) text
  end.

(** What the user can do. *)
Inductive Action : Type :=
  | VariableCount (delta : Z)
  | AddConstraint (now : Z)
  | RemoveConstraint (id : string)
  | UpdateConstraint (id : string) (edit : Edit)
  | UpdateObjective (index : nat) (parsed : num)
  | SetDirection (type : OptimizationType)
  | Solve
  | AiParse (parsed : option LPModel.t)
  | Explain (text : option string).

Definition act (st : State) (a : Action) : State :=
  match a with
  | VariableCount delta => handleVariableCountChange delta st
  | AddConstraint now => addConstraint now st
  | RemoveConstraint id => removeConstraint id st
  | UpdateConstraint id edit => updateConstraint id edit st
  | UpdateObjective index parsed => updateObjective index parsed st
  | SetDirection type => setDirection type st
  | Solve => handleSolve st
  | AiParse parsed => handleAiParse parsed st
  | Explain text => handleExplain text st
  end.

(** The values the solution card hands to [toFixed], one per variable
    name: [result.variableValues[i]].  [None] where an entry is missing:
    [undefined.toFixed] raises a TypeError and the render fails. *)
Definition card_values (names : list string) (r : SimplexResult.t)
    : option (list (string * num)) :=
  mapM (λ '(i, name), (λ v, (name, v)) <$> SimplexResult.variableValues r !! i)
       (imap pair names).

End App.

(** ** The model parsed by the AI service

    [parseNaturalLanguageProblem] of the Gemini service: the mapping from
    the parsed response to the model.  The response is taken in the shape
    its [responseSchema] requires. *)
Module Gemini.

Record RawConstraint : Type := mkRawConstraint {
  coefficients : list num;
  type : ConstraintType;
  rhs : num
}.

Record RawData : Type := mkRawData {
  rawType : string;
  variables : list string;
  objectiveCoefficients : list num;
  constraints : list RawConstraint
}.

(** [const model: LPModel = { ... }]. *)
Definition model (rawData : RawData) : LPModel.t :=
  LPModel.mk
    (if (rawType rawData =? "MIN")%string then MINIMIZE else MAXIMIZE)
    (length (variables rawData))
    (variables rawData)
    (objectiveCoefficients rawData)
    (imap (λ idx c, Constraint.mk ("c-" ++ show_nat idx)%string
                      (coefficients c) (type c) (rhs c))
          (constraints rawData)).

End Gemini.

(** ** Vocabulary of the properties *)

(** A tableau of [R] rows, each of [C] cells. *)
Definition rect (R C : nat) (t : Tableau) : Prop :=
  length t = R ∧ Forall (λ row, length row = C) t.

(** The cell [(i, j)] of the initial tableau, read off the model. *)
Definition initial_cell (model : LPModel.t) (i j : nat) : num :=
  let N := LPModel.numVariables model in
  let m := length (LPModel.constraints model) in
  match LPModel.constraints model !! i with
  | Some c =>
      if decide (j < N) then arr_get (Constraint.coefficients c) j
      else if decide (j = N + i) then Fin 1
      else if decide (j = N + m) then Constraint.rhs c
      else Fin 0
  | None =>
      if decide (j < N) then
        let coeff := arr_get (LPModel.objectiveCoefficients model) j in
        if isMinimize (LPModel.type model) then coeff else nneg coeff
      else Fin 0
  end.

(** [a <= b]; false as soon as one side is [NaN]. *)
Definition nle (a b : num) : bool :=
  match a, b with
  | Fin p, Fin q => Qle_bool p q
  | _, _ => false
  end.

(** What the scan of the cells [0 .. n-1] of [lastRow] has found. *)
Definition scan_found (lastRow : list num) (n : nat)
    (st : option nat * num) : Prop :=
  match st.1 with
  | None =>
      st.2 = Fin 0 ∧ ∀ j, j < n → nlt (arr_get lastRow j) (Fin 0) = false
  | Some c =>
      c < n ∧ st.2 = arr_get lastRow c ∧
      nlt (arr_get lastRow c) (Fin 0) = true ∧
      (∀ j, j < n → nlt (arr_get lastRow j) (arr_get lastRow c) = false) ∧
      (∀ j, j < c → nle (arr_get lastRow j) (arr_get lastRow c) = false)
  end.

(** The ratio of row [i]: right-hand side over entering-column entry. *)
Definition ratio (N m : nat) (t : Tableau) (pc : nat) (i : nat) : num :=
  ndiv (get t i (totalCols N m - 1)) (get t i pc).

(** What the ratio test has found among the rows [0 .. n-1]. *)
Definition ratio_found (N m : nat) (t : Tableau) (pc : nat) (n : nat)
    (st : option nat * bound) : Prop :=
  match st.1 with
  | None =>
      st.2 = Infinity ∧
      ∀ i, i < n → ngt (get t i pc) (Fin 0) = true → ratio N m t pc i = NaN
  | Some p =>
      p < n ∧ st.2 = Below (ratio N m t pc p) ∧
      ngt (get t p pc) (Fin 0) = true ∧ is_fin (ratio N m t pc p) = true ∧
      (∀ i, i < n → ngt (get t i pc) (Fin 0) = true →
            nlt (ratio N m t pc i) (ratio N m t pc p) = false) ∧
      (∀ i, i < p → ngt (get t i pc) (Fin 0) = true →
            nle (ratio N m t pc i) (ratio N m t pc p) = false)
  end.

(** The state after [k] passes through the loop body that all ended in a
    pivot; [None] when one of them left the loop. *)
Fixpoint after_pivots (N m : nat) (k : nat) (s : LoopState)
    : option LoopState :=
  match k with
  | 0 => Some s
  | S k =>
      match iteration N m s with
      | Next s' => after_pivots N m k s'
      | _ => None
      end
  end.

(** How the loop is left. *)
Inductive LoopExit (N m : nat) (r : nat) (s0 : LoopState)
    : LoopState + SimplexResult.t → Prop :=
  | exit_break k s s' :
      k < r → after_pivots N m k s0 = Some s →
      iteration N m s = Break s' → LoopExit N m r s0 (inl s')
  | exit_return k s res :
      k < r → after_pivots N m k s0 = Some s →
      iteration N m s = Return res → LoopExit N m r s0 (inr res)
  | exit_ceiling s :
      after_pivots N m r s0 = Some s → LoopExit N m r s0 (inl s).

(** A constraint with [N] coefficients, all rational, and a rational
    right-hand side. *)
Definition well_formed_constraint (N : nat) (c : Constraint.t) : bool :=
  (length (Constraint.coefficients c) =? N)
  && forallb is_fin (Constraint.coefficients c)
  && is_fin (Constraint.rhs c).

(** Every coefficient sequence has [numVariables] entries and every number
    of the model is a rational. *)
Definition well_formed (model : LPModel.t) : bool :=
  (length (LPModel.objectiveCoefficients model) =? LPModel.numVariables model)
  && forallb is_fin (LPModel.objectiveCoefficients model)
  && forallb (well_formed_constraint (LPModel.numVariables model))
             (LPModel.constraints model).

(** Column [c] is the [k]-th unit vector over the rows [0 .. rows-1]. *)
Definition unit_column (rows : nat) (t : Tableau) (c k : nat) : bool :=
  forallb (λ i, neq (get t i c) (if decide (i = k) then Fin 1 else Fin 0))
          (seq 0 rows).

(** The invariant of the loop on a well-formed model: the tableau keeps
    its shape and holds rationals only, and the column of the basic
    variable of each constraint row is the unit vector of that row. *)
Record Inv (N m : nat) (s : LoopState) : Prop := mkInv {
  inv_rect : rect (m + 1) (N + m + 1) (tableau s);
  inv_fin : ∀ i j, i < m + 1 → j < N + m + 1 →
              is_fin (get (tableau s) i j) = true;
  inv_len : length (basicVariables s) = m;
  inv_basis : ∀ k, k < m →
      ∃ c, basicVariables s !! k = Some c ∧ c < N + m ∧
           unit_column (m + 1) (tableau s) c k = true
}.

(** [s] is the state of the loop of [solveSimplex model] after [k] pivots. *)
Definition reached (model : LPModel.t) (k : nat) (s : LoopState) : Prop :=
  after_pivots (LPModel.numVariables model)
               (length (LPModel.constraints model)) k
               (initial_state model) = Some s.

(** The objective coefficient the solver maximizes: the coefficient itself
    for MAXIMIZE, its negation for MINIMIZE. *)
Definition maximized_coefficient (model : LPModel.t) (j : nat) : num :=
  let coeff := arr_get (LPModel.objectiveCoefficients model) j in
  if isMinimize (LPModel.type model) then nneg coeff else coeff.

(** The fields of a model that [solveSimplex] reads: all but the
    [variableNames] and the [id] and [type] of the constraints. *)
Definition numeric_part (model : LPModel.t)
    : OptimizationType * nat * list num * list (list num * num) :=
  (LPModel.type model, LPModel.numVariables model,
   LPModel.objectiveCoefficients model,
   (λ c, (Constraint.coefficients c, Constraint.rhs c))
     <$> LPModel.constraints model).

(** A model the specification calls malformed: no variable, an empty
    objective, or a constraint whose coefficient sequence does not have
    [numVariables] entries. *)
Definition malformed (model : LPModel.t) : bool :=
  (LPModel.numVariables model =? 0)
  || (length (LPModel.objectiveCoefficients model) =? 0)
  || existsb (λ c, negb (length (Constraint.coefficients c)
                         =? LPModel.numVariables model))
             (LPModel.constraints model).

(** The first [N] entries of a sequence, with [undefined] for the missing
    ones. *)
Definition reshape_seq (N : nat) (l : list num) : list num :=
  take N l ++ replicate (N - length l) NaN.

(** The model with every coefficient sequence reshaped to [numVariables]
    entries. *)
Definition reshape (model : LPModel.t) : LPModel.t :=
  LPModel.mk (LPModel.type model) (LPModel.numVariables model)
    (LPModel.variableNames model)
    (reshape_seq (LPModel.numVariables model)
                 (LPModel.objectiveCoefficients model))
    ((λ c, Constraint.mk (Constraint.id c)
             (reshape_seq (LPModel.numVariables model)
                          (Constraint.coefficients c))
             (Constraint.type c) (Constraint.rhs c))
       <$> LPModel.constraints model).

(** What holds of the loop state on every model, well-formed or not: the
    tableau keeps its shape and the basis names one column per constraint
    row. *)
Record Shape (N m : nat) (s : LoopState) : Prop := mkShape {
  shape_rect : rect (m + 1) (N + m + 1) (tableau s);
  shape_len : length (basicVariables s) = m;
  shape_basic : Forall (λ c, c < N + m) (basicVariables s)
}.

(** A well-made step of the trace: the snapshot has the shape of the
    tableau; a pivot step names a constraint row and a column left of the
    right-hand side, its pivot element is strictly positive and the
    objective entry of its column is negative; a terminal step has no
    pivot coordinates. *)
Definition step_ok (N m : nat) (st : SimplexStep.t) : Prop :=
  rect (m + 1) (N + m + 1) (SimplexStep.tableau st) ∧
  length (SimplexStep.basicVariables st) = m ∧
  match SimplexStep.pivotRow st, SimplexStep.pivotCol st with
  | Some pr, Some pc =>
      pr < m ∧ pc < N + m ∧
      ngt (get (SimplexStep.tableau st) pr pc) (Fin 0) = true ∧
      nlt (get (SimplexStep.tableau st) m pc) (Fin 0) = true ∧
      SimplexStep.isOptimal st = false
  | None, None => SimplexStep.isOptimal st = true
  | _, _ => False
  end.

(** Replaying a trace from a tableau and a basis: every step shows the
    current tableau and basis; a pivot step is followed by the pivot it
    names; a terminal step ends the trace. *)
Inductive Replays (N m : nat)
    : Tableau * list nat → list SimplexStep.t → Tableau * list nat → Prop :=
  | replays_nil cur : Replays N m cur [] cur
  | replays_terminal cur st :
      SimplexStep.tableau st = cur.1 →
      SimplexStep.basicVariables st = cur.2 →
      SimplexStep.pivotRow st = None → SimplexStep.pivotCol st = None →
      Replays N m cur [st] cur
  | replays_pivot cur st pr pc rest final :
      SimplexStep.tableau st = cur.1 →
      SimplexStep.basicVariables st = cur.2 →
      SimplexStep.pivotRow st = Some pr → SimplexStep.pivotCol st = Some pc →
      Replays N m (pivot N m pr pc cur.1, <[pr := pc]> cur.2) rest final →
      Replays N m cur (st :: rest) final.
















(** The actions the form offers: every one but the AI parse, with the
    indices the inputs of the form pass (there is one input per variable
    name, [model.variableNames.map((name, i) => ...)]) and the three
    fields it edits (a coefficient, the relation and the right-hand
    side). *)
Definition form_action (st : App.State) (a : App.Action) : bool :=
  match a with
  | App.UpdateConstraint _ (App.SetCoefficient index _) =>
      index <? length (LPModel.variableNames (App.model st))
  | App.UpdateConstraint _ (App.SetRhs _) => true
  | App.UpdateConstraint _ (App.SetType _) => true
  | App.UpdateConstraint _ _ => false
  | App.UpdateObjective index _ =>
      index <? length (LPModel.variableNames (App.model st))
  | App.AiParse _ => false
  | _ => true
  end.

(** Every action of the list is a form action in the state it meets. *)
Fixpoint form_run (st : App.State) (actions : list App.Action) : bool :=
  match actions with
  | [] => true
  | a :: actions => form_action st a && form_run (App.act st a) actions
  end.

(** The model with another optimization direction. *)
Definition with_direction (type : OptimizationType) (model : LPModel.t)
    : LPModel.t :=
  LPModel.mk type (LPModel.numVariables model) (LPModel.variableNames model)
             (LPModel.objectiveCoefficients model)
             (LPModel.constraints model).

(** What the form keeps true of its state. *)
Definition form_invariant (st : App.State) : Prop :=
  well_formed (App.model st) = true ∧
  length (LPModel.variableNames (App.model st))
    = LPModel.numVariables (App.model st) ∧
  1 ≤ LPModel.numVariables (App.model st) ≤ 10.

(** The result shown belongs to the model shown, up to the direction. *)
Definition result_invariant (st : App.State) : Prop :=
  App.result st = None ∨
  ∃ type, App.result st
          = Some (solveSimplex (with_direction type (App.model st))).

(** ** Example models *)

(** Maximize [2 x1 + x2] subject to [x1 - x2 <= 1]: unbounded, found in
    the second iteration. *)
Definition unbounded_model : LPModel.t :=
  LPModel.mk MAXIMIZE 2 ["x1"; "x2"]%string [Fin 2; Fin 1]
    [Constraint.mk "c1" [Fin 1; Fin (-1)] LESS_THAN_EQ (Fin 1)].

(** Its loop state after the first pivot. *)
Definition unbounded_state : LoopState :=
  Eval vm_compute in
    default (initial_state unbounded_model)
            (after_pivots 2 1 1 (initial_state unbounded_model)).

(** The example of the specification: maximize [10 x1 + 20 x2] subject to
    [x1 + x2 <= 50] and [2 x1 + 4 x2 <= 120]. *)
Definition example_model : LPModel.t :=
  LPModel.mk MAXIMIZE 2 ["x1"; "x2"]%string [Fin 10; Fin 20]
    [Constraint.mk "a" [Fin 1; Fin 1] LESS_THAN_EQ (Fin 50);
     Constraint.mk "b" [Fin 2; Fin 4] LESS_THAN_EQ (Fin 120)].


(** A degenerate model: both constraint rows have ratio [4 / 2 = 2 / 1]
    in the entering column [0]. *)
Definition tie_model : LPModel.t :=
  LPModel.mk MAXIMIZE 2 ["x1"; "x2"]%string [Fin 3; Fin 1]
    [Constraint.mk "a" [Fin 2; Fin 1] LESS_THAN_EQ (Fin 4);
     Constraint.mk "b" [Fin 1; Fin 1] LESS_THAN_EQ (Fin 2)].


(** The numbers of [example_model] under other names, identifiers and
    relations. *)
Definition relabelled_model : LPModel.t :=
  LPModel.mk MAXIMIZE 2 ["chairs"; "tables"]%string [Fin 10; Fin 20]
    [Constraint.mk "wood" [Fin 1; Fin 1] GREATER_THAN_EQ (Fin 50);
     Constraint.mk "hours" [Fin 2; Fin 4] EQUALS (Fin 120)].

(** Three malformed models: a coefficient sequence too long, one too
    short, and a model without variables. *)
Definition long_model : LPModel.t :=
  LPModel.mk MAXIMIZE 2 ["x1"; "x2"]%string [Fin 1; Fin 1]
    [Constraint.mk "a" [Fin 1; Fin 1; Fin 7] LESS_THAN_EQ (Fin 4)].

Definition short_model : LPModel.t :=
  LPModel.mk MAXIMIZE 2 ["x1"; "x2"]%string [Fin 1; Fin 1]
    [Constraint.mk "a" [Fin 1] LESS_THAN_EQ (Fin 4)].

Definition empty_model : LPModel.t :=
  LPModel.mk MAXIMIZE 0 [] []
    [Constraint.mk "a" [] LESS_THAN_EQ (Fin 4)].

(** Two more malformed models: a constraint without its coefficient, and
    an objective without its coefficient. *)
Definition ragged_model : LPModel.t :=
  LPModel.mk MAXIMIZE 1 ["x1"]%string [Fin 1]
    [Constraint.mk "a" [Fin 1] LESS_THAN_EQ (Fin 1);
     Constraint.mk "b" [] LESS_THAN_EQ (Fin 1)].

Definition hollow_model : LPModel.t :=
  LPModel.mk MAXIMIZE 1 ["x1"]%string []
    [Constraint.mk "a" [Fin 1] LESS_THAN_EQ (Fin 1)].

(** The Klee-Minty cube in seven variables: the largest-coefficient rule
    visits all its [2^7] vertices, 127 pivots. *)
Definition klee_minty : LPModel.t :=
  LPModel.mk MAXIMIZE 7 ["x1"; "x2"; "x3"; "x4"; "x5"; "x6"; "x7"]%string
    [Fin 1000000; Fin 100000; Fin 10000; Fin 1000; Fin 100; Fin 10; Fin 1]
    [
     Constraint.mk "c1"
       [Fin 1; Fin 0; Fin 0; Fin 0; Fin 0; Fin 0; Fin 0]
       LESS_THAN_EQ (Fin 1);
     Constraint.mk "c2"
       [Fin 20; Fin 1; Fin 0; Fin 0; Fin 0; Fin 0; Fin 0]
       LESS_THAN_EQ (Fin 100);
     Constraint.mk "c3"
       [Fin 200; Fin 20; Fin 1; Fin 0; Fin 0; Fin 0; Fin 0]
       LESS_THAN_EQ (Fin 10000);
     Constraint.mk "c4"
       [Fin 2000; Fin 200; Fin 20; Fin 1; Fin 0; Fin 0; Fin 0]
       LESS_THAN_EQ (Fin 1000000);
     Constraint.mk "c5"
       [Fin 20000; Fin 2000; Fin 200; Fin 20; Fin 1; Fin 0; Fin 0]
       LESS_THAN_EQ (Fin 100000000);
     Constraint.mk "c6"
       [Fin 200000; Fin 20000; Fin 2000; Fin 200; Fin 20; Fin 1; Fin 0]
       LESS_THAN_EQ (Fin 10000000000);
     Constraint.mk "c7"
       [Fin 2000000; Fin 200000; Fin 20000; Fin 2000; Fin 200; Fin 20; Fin 1]
       LESS_THAN_EQ (Fin 1000000000000)].

(** Its loop state after [maxIterations] pivots. *)
Definition klee_minty_state : LoopState :=
  Eval vm_compute in
    default (initial_state klee_minty)
            (after_pivots 7 7 maxIterations (initial_state klee_minty)).


(** ** Numbers: comparison and negation *)

Lemma nlt_Fin (p q : Q) : nlt (Fin p) (Fin q) = true ↔ (p < q)%Q.
Proof.
  simpl. rewrite negb_true_iff. split.
  - intros H. apply Qnot_le_lt. intros Hle.
    apply Qle_bool_iff in Hle. congruence.
  - intros H. destruct (Qle_bool q p) eqn:E; [|done].
    apply Qle_bool_iff in E. exfalso. by apply (Qlt_not_le p q).
Qed.

Lemma nlt_Fin_false (p q : Q) : nlt (Fin p) (Fin q) = false ↔ (q <= p)%Q.
Proof.
  simpl. rewrite negb_false_iff. apply Qle_bool_iff.
Qed.

Lemma nlt_inv (a b : num) :
  nlt a b = true → ∃ p q, a = Fin p ∧ b = Fin q ∧ (p < q)%Q.
Proof.
  destruct a as [p|], b as [q|]; try done.
  intros H. exists p, q. by rewrite <- nlt_Fin.
Qed.

Lemma nneg_involutive (a : num) : nneg (nneg a) = a.
Proof.
  destruct a as [[n d]|]; [|done].
  simpl. unfold Qopp. simpl. by rewrite Z.opp_involutive.
Qed.

(** ** Arrays and tableaux: reads after writes *)

Lemma arr_get_lookup (a : list num) (j : nat) (x : num) :
  a !! j = Some x → arr_get a j = x.
Proof. unfold arr_get. by intros ->. Qed.

Lemma arr_set_lt (a : list num) (j : nat) (v : num) :
  j < length a → arr_set a j v = <[j := v]> a.
Proof. intros H. unfold arr_set. by rewrite decide_True. Qed.

Lemma arr_get_set (a : list num) (j j' : nat) (v : num) :
  j < length a →
  arr_get (arr_set a j v) j' = if decide (j' = j) then v else arr_get a j'.
Proof.
  intros H. rewrite arr_set_lt by done. unfold arr_get.
  destruct (decide (j' = j)) as [->|Hne].
  - by rewrite list_lookup_insert_eq.
  - by rewrite list_lookup_insert_ne.
Qed.

Lemma rect_lookup (R C : nat) (t : Tableau) (i : nat) (row : list num) :
  rect R C t → t !! i = Some row → length row = C.
Proof.
  intros [_ H] Hi. rewrite Forall_lookup in H. by eapply H.
Qed.

Lemma rect_row (R C : nat) (t : Tableau) (i : nat) :
  rect R C t → i < R → ∃ row, t !! i = Some row ∧ length row = C.
Proof.
  intros Hr Hi. destruct (lookup_lt_is_Some_2 t i) as [row Hrow].
  { destruct Hr as [-> _]. done. }
  exists row. split; [done|]. by eapply rect_lookup.
Qed.

Lemma rect_set (R C : nat) (t : Tableau) (i j : nat) (v : num) :
  rect R C t → j < C → rect R C (set t i j v).
Proof.
  intros [HR HC] Hj. split.
  - unfold set. by rewrite length_alter.
  - unfold set. apply Forall_alter; [done|].
    intros row _ Hrow. rewrite arr_set_lt by lia.
    by rewrite length_insert.
Qed.

Lemma get_set (R C : nat) (t : Tableau) (i j i' j' : nat) (v : num) :
  rect R C t → i < R → j < C →
  get (set t i j v) i' j' =
    if decide (i' = i ∧ j' = j) then v else get t i' j'.
Proof.
  intros Hr Hi Hj. unfold get, set.
  destruct (decide (i = i')) as [<-|Hne].
  - rewrite list_lookup_alter_eq.
    destruct (rect_row R C t i Hr Hi) as (row & -> & Hlen). simpl.
    rewrite arr_get_set by lia.
    destruct (decide (j' = j)) as [->|Hj'].
    + by rewrite decide_True.
    + rewrite decide_False; [done|]. intros [_ ?]. done.
  - rewrite list_lookup_alter_ne by done.
    rewrite decide_False; [done|]. intros [? _]. by subst.
Qed.

(** Two tableaux of the same shape with the same cells are equal. *)
Lemma rect_ext (R C : nat) (t t' : Tableau) :
  rect R C t → rect R C t' →
  (∀ i j, i < R → j < C → get t i j = get t' i j) → t = t'.
Proof.
  intros Hr Hr' Hget. apply list_eq. intros i.
  destruct (decide (i < R)) as [Hi|Hi].
  - destruct (rect_row R C t i Hr Hi) as (row & Hrow & Hlen).
    destruct (rect_row R C t' i Hr' Hi) as (row' & Hrow' & Hlen').
    rewrite Hrow, Hrow'. f_equal. apply list_eq. intros j.
    destruct (decide (j < C)) as [Hj|Hj].
    + specialize (Hget i j Hi Hj). unfold get in Hget.
      rewrite Hrow, Hrow' in Hget. unfold arr_get in Hget.
      destruct (lookup_lt_is_Some_2 row j) as [x Hx]; [lia|].
      destruct (lookup_lt_is_Some_2 row' j) as [x' Hx']; [lia|].
      rewrite Hx, Hx' in Hget |- *. simpl in Hget. by subst.
    + rewrite !lookup_ge_None_2; [done|lia|lia].
  - destruct Hr as [HR _], Hr' as [HR' _].
    rewrite !lookup_ge_None_2; [done|lia|lia].
Qed.

(** A loop that writes the cells [0 .. n-1] of row [i], the value written
    to cell [j] being [g j] whatever the earlier writes of the loop did. *)
Lemma row_loop (R C : nat) (i n : nat) (h : Tableau → nat → num)
    (g : nat → num) (t : Tableau) :
  rect R C t → i < R → n ≤ C →
  (∀ t' j, j < n → rect R C t' →
     (∀ i' j', i' ≠ i ∨ j ≤ j' → get t' i' j' = get t i' j') →
     h t' j = g j) →
  rect R C (foldl (λ t j, set t i j (h t j)) t (seq 0 n)) ∧
  ∀ i' j', get (foldl (λ t j, set t i j (h t j)) t (seq 0 n)) i' j' =
           if decide (i' = i ∧ j' < n) then g j' else get t i' j'.
Proof.
  intros Hr Hi. induction n as [|n IH]; intros Hn Hh.
  - simpl. split; [done|]. intros i' j'.
    rewrite decide_False; [done|lia].
  - rewrite seq_S, foldl_snoc. simpl.
    destruct IH as [IHr IHg]; [lia| |].
    { intros t' j Hj. apply Hh. lia. }
    set (t1 := foldl (λ t j, set t i j (h t j)) t (seq 0 n)) in *.
    split; [apply rect_set; [done|lia]|].
    intros i' j'. rewrite (get_set R C) by (done || lia).
    rewrite (Hh t1 n); [|lia|done|].
    2:{ intros i'' j'' Hor. rewrite IHg. rewrite decide_False; [done|lia]. }
    destruct (decide (i' = i ∧ j' = n)) as [[-> ->]|Hne].
    + rewrite decide_True; [done|lia].
    + rewrite IHg. destruct (decide (i' = i ∧ j' < n)) as [[-> Hlt]|Hge].
      * rewrite decide_True; [done|lia].
      * rewrite decide_False; [done|lia].
Qed.

(** ** The initial tableau, cell by cell *)

Lemma fill_constraint_spec (N m i : nat) (c : Constraint.t) (t : Tableau)
    (b : list nat) :
  rect (m + 1) (N + m + 1) t → i < m →
  rect (m + 1) (N + m + 1) (fill_constraint N m i c (t, b)).1 ∧
  (fill_constraint N m i c (t, b)).2 = b ++ [N + i] ∧
  ∀ i' j', get (fill_constraint N m i c (t, b)).1 i' j' =
    if decide (i' = i) then
      if decide (j' = N + m) then Constraint.rhs c
      else if decide (j' = N + i) then Fin 1
      else if decide (j' < N) then arr_get (Constraint.coefficients c) j'
      else get t i j'
    else get t i' j'.
Proof.
  intros Hr Hi. unfold fill_constraint, totalCols. simpl.
  destruct (row_loop (m + 1) (N + m + 1) i N
              (λ _ j, arr_get (Constraint.coefficients c) j)
              (λ j, arr_get (Constraint.coefficients c) j) t)
    as [Hr1 Hg1]; [done|lia|lia|done|].
  set (t1 := foldl _ t (seq 0 N)) in *.
  assert (Hr2 : rect (m + 1) (N + m + 1) (set t1 i (N + i) (Fin 1))).
  { apply rect_set; [done|lia]. }
  split; [apply rect_set; [done|lia]|]. split; [done|].
  intros i' j'.
  rewrite (get_set (m + 1) (N + m + 1)) by (done || lia).
  rewrite (get_set (m + 1) (N + m + 1)) by (done || lia).
  rewrite Hg1.
  destruct (decide (i' = i)) as [->|Hne].
  - replace (N + m + 1 - 1) with (N + m) by lia.
    destruct (decide (j' = N + m)) as [->|Hj1].
    { rewrite decide_True; [done|lia]. }
    rewrite decide_False by lia.
    destruct (decide (j' = N + i)) as [->|Hj2].
    { rewrite decide_True; [done|lia]. }
    rewrite decide_False by lia.
    destruct (decide (j' < N)) as [Hj3|Hj3].
    { rewrite decide_True; [done|lia]. }
    rewrite decide_False; [done|lia].
  - rewrite !decide_False by lia. done.
Qed.

(** The constraint rows written after [n] passes of the loop. *)
Lemma fill_constraints_prefix (N m : nat) (cs : list Constraint.t) (n : nat) :
  length cs = m → n ≤ m →
  let st := foldl (λ st i,
                     match cs !! i with
                     | Some c => fill_constraint N m i c st
                     | None => st
                     end)
                  (zero_tableau N m, []) (seq 0 n) in
  rect (m + 1) (N + m + 1) st.1 ∧
  st.2 = (λ i, N + i) <$> seq 0 n ∧
  ∀ i j, get st.1 i j =
    match cs !! i with
    | Some c =>
        if decide (i < n) then
          if decide (j = N + m) then Constraint.rhs c
          else if decide (j = N + i) then Fin 1
          else if decide (j < N) then arr_get (Constraint.coefficients c) j
          else get (zero_tableau N m) i j
        else get (zero_tableau N m) i j
    | None => get (zero_tableau N m) i j
    end.
Proof.
  intros Hlen. induction n as [|n IH]; intros Hn.
  - simpl. split.
    { unfold zero_tableau, totalRows, totalCols. split.
      - by rewrite length_replicate.
      - apply Forall_replicate. by rewrite length_replicate. }
    split; [done|]. intros i j. destruct (cs !! i); [|done].
    destruct (decide (i < 0)); [lia|done].
  - rewrite seq_S, foldl_snoc, Nat.add_0_l.
    destruct IH as (IHr & IHb & IHg); [lia|].
    set (st := foldl _ (zero_tableau N m, []) (seq 0 n)) in *.
    destruct (lookup_lt_is_Some_2 cs n) as [c Hc]; [lia|].
    rewrite Hc. destruct st as [t b]. cbn [fst snd] in *.
    destruct (fill_constraint_spec N m n c t b) as (Hr & Hb & Hg);
      [done|lia|].
    split; [done|]. split.
    { rewrite Hb, IHb, fmap_app. done. }
    intros i j. rewrite Hg, IHg.
    destruct (decide (i = n)) as [->|Hne].
    + rewrite Hc.
      rewrite (decide_True (P := n < S n)) by lia.
      rewrite (decide_False (P := n < n)) by lia.
      done.
    + rewrite IHg. destruct (cs !! i) as [ci|]; [|done].
      destruct (decide (i < n)).
      * by rewrite (decide_True (P := i < S n)) by lia.
      * by rewrite (decide_False (P := i < S n)) by lia.
Qed.

Lemma get_zero_tableau (N m i j : nat) :
  i < m + 1 → j < N + m + 1 → get (zero_tableau N m) i j = Fin 0.
Proof.
  intros Hi Hj. unfold get, zero_tableau, totalRows, totalCols.
  rewrite lookup_replicate_2 by done.
  apply arr_get_lookup. by apply lookup_replicate_2.
Qed.

Lemma initial_tableau_spec (model : LPModel.t) :
  let N := LPModel.numVariables model in
  let m := length (LPModel.constraints model) in
  rect (m + 1) (N + m + 1) (initial_tableau model).1 ∧
  (initial_tableau model).2 = (λ i, N + i) <$> seq 0 m ∧
  ∀ i j, i < m + 1 → j < N + m + 1 →
    get (initial_tableau model).1 i j = initial_cell model i j.
Proof.
  intros N m. unfold initial_tableau, fill_constraints.
  fold N. fold m.
  destruct (fill_constraints_prefix N m (LPModel.constraints model) m)
    as (Hr & Hb & Hg); [done|done|].
  set (st := foldl _ (zero_tableau N m, []) (seq 0 m)) in *.
  destruct st as [t b]. cbn [fst snd] in *.
  unfold fill_objective, totalRows.
  destruct (row_loop (m + 1) (N + m + 1) (m + 1 - 1) N
              (λ _ j, if isMinimize (LPModel.type model)
                      then arr_get (LPModel.objectiveCoefficients model) j
                      else nneg (arr_get (LPModel.objectiveCoefficients model) j))
              (λ j, if isMinimize (LPModel.type model)
                    then arr_get (LPModel.objectiveCoefficients model) j
                    else nneg (arr_get (LPModel.objectiveCoefficients model) j))
              t)
    as [Hr1 Hg1]; [done|lia|lia|done|].
  split; [done|]. split; [done|].
  intros i j Hi Hj. rewrite Hg1, Hg. unfold initial_cell. fold N. fold m.
  destruct (LPModel.constraints model !! i) as [c|] eqn:Hc.
  - assert (i < m) by (by eapply lookup_lt_Some).
    rewrite (decide_False (P := i = m + 1 - 1 ∧ j < N)) by lia.
    rewrite (decide_True (P := i < m)) by done.
    destruct (decide (j < N)) as [HjN|HjN].
    { rewrite (decide_False (P := j = N + m)) by lia.
      by rewrite (decide_False (P := j = N + i)) by lia. }
    destruct (decide (j = N + i)) as [->|Hji].
    { by rewrite (decide_False (P := N + i = N + m)) by lia. }
    destruct (decide (j = N + m)); [done|].
    by apply get_zero_tableau.
  - apply lookup_ge_None_1 in Hc.
    destruct (decide (j < N)) as [HjN|HjN].
    + rewrite decide_True by (unfold m in *; lia). done.
    + rewrite decide_False by lia. by apply get_zero_tableau.
Qed.

(** ** The pivot operation, cell by cell *)

Lemma normalize_row_spec (N m pr : nat) (pe : num) (t : Tableau) :
  rect (m + 1) (N + m + 1) t → pr < m + 1 →
  rect (m + 1) (N + m + 1) (normalize_row N m pr pe t) ∧
  ∀ i j, get (normalize_row N m pr pe t) i j =
    if decide (i = pr ∧ j < N + m + 1) then ndiv (get t pr j) pe
    else get t i j.
Proof.
  intros Hr Hpr. unfold normalize_row, totalCols.
  apply (row_loop (m + 1) (N + m + 1) pr (N + m + 1)
           (λ t j, ndiv (get t pr j) pe) (λ j, ndiv (get t pr j) pe));
    [done|done|done|].
  intros t' j Hj Hr' Hsame. rewrite Hsame; [done|lia].
Qed.

Lemma eliminate_row_spec (N m pr i : nat) (factor : num) (t : Tableau) :
  rect (m + 1) (N + m + 1) t → i < m + 1 → i ≠ pr →
  rect (m + 1) (N + m + 1) (eliminate_row N m pr i factor t) ∧
  ∀ i' j, get (eliminate_row N m pr i factor t) i' j =
    if decide (i' = i ∧ j < N + m + 1)
    then nsub (get t i j) (nmul factor (get t pr j))
    else get t i' j.
Proof.
  intros Hr Hi Hne. unfold eliminate_row, totalCols.
  apply (row_loop (m + 1) (N + m + 1) i (N + m + 1)
           (λ t j, nsub (get t i j) (nmul factor (get t pr j)))
           (λ j, nsub (get t i j) (nmul factor (get t pr j))));
    [done|done|done|].
  intros t' j Hj Hr' Hsame. rewrite !Hsame; [done|left; done|right; lia].
Qed.

(** The rows eliminated after [n] passes of the loop over the rows. *)
Lemma eliminate_prefix (N m pr pc : nat) (t : Tableau) (n : nat) :
  rect (m + 1) (N + m + 1) t → n ≤ m + 1 →
  let t' := foldl (λ t i,
                     if decide (i ≠ pr)
                     then eliminate_row N m pr i (get t i pc) t
                     else t)
                  t (seq 0 n) in
  rect (m + 1) (N + m + 1) t' ∧
  ∀ i j, get t' i j =
    if decide (i < n ∧ i ≠ pr ∧ j < N + m + 1)
    then nsub (get t i j) (nmul (get t i pc) (get t pr j))
    else get t i j.
Proof.
  intros Hr. induction n as [|n IH]; intros Hn.
  - cbn [seq foldl]. split; [done|]. intros i j.
    rewrite decide_False; [done|lia].
  - rewrite seq_S, foldl_snoc, Nat.add_0_l.
    destruct IH as [IHr IHg]; [lia|].
    set (t1 := foldl _ t (seq 0 n)) in *.
    destruct (decide (n ≠ pr)) as [Hne|Heq].
    + destruct (eliminate_row_spec N m pr n (get t1 n pc) t1) as [Hr2 Hg2];
        [done|lia|done|].
      split; [done|]. intros i j. rewrite Hg2.
      destruct (decide (i = n ∧ j < N + m + 1)) as [[-> Hj]|Hnot].
      * rewrite !IHg.
        rewrite !(decide_False (P := n < n ∧ _)) by lia.
        rewrite (decide_False (P := pr < n ∧ _)) by lia.
        rewrite (decide_True (P := n < S n ∧ _)) by lia. done.
      * rewrite IHg.
        destruct (decide (i < n ∧ i ≠ pr ∧ j < N + m + 1)) as [Hin|Hout].
        -- rewrite decide_True by lia. done.
        -- rewrite decide_False by lia. done.
    + split; [done|]. intros i j. rewrite IHg.
      destruct (decide (i < n ∧ i ≠ pr ∧ j < N + m + 1)) as [Hin|Hout].
      * rewrite decide_True by lia. done.
      * rewrite decide_False by lia. done.
Qed.

Lemma pivot_spec (N m pr pc : nat) (t : Tableau) :
  rect (m + 1) (N + m + 1) t → pr < m + 1 →
  rect (m + 1) (N + m + 1) (pivot N m pr pc t) ∧
  ∀ i j, i < m + 1 → j < N + m + 1 →
    get (pivot N m pr pc t) i j =
      if decide (i = pr) then ndiv (get t pr j) (get t pr pc)
      else nsub (get t i j)
                (nmul (get t i pc) (ndiv (get t pr j) (get t pr pc))).
Proof.
  intros Hr Hpr. unfold pivot, eliminate, totalRows.
  destruct (normalize_row_spec N m pr (get t pr pc) t) as [Hr1 Hg1];
    [done|done|].
  set (t1 := normalize_row N m pr (get t pr pc) t) in *.
  destruct (eliminate_prefix N m pr pc t1 (m + 1)) as [Hr2 Hg2];
    [done|done|].
  split; [done|]. intros i j Hi Hj. rewrite Hg2.
  destruct (decide (i = pr)) as [->|Hne].
  - rewrite decide_False by lia. rewrite Hg1.
    rewrite decide_True by done. done.
  - rewrite decide_True by done. rewrite !Hg1.
    rewrite !(decide_False (P := i = pr ∧ _)) by lia.
    rewrite decide_True by done. done.
Qed.

(** ** Order on numbers *)


Lemma nle_Fin_false (p q : Q) : nle (Fin p) (Fin q) = false ↔ (q < p)%Q.
Proof.
  simpl. split.
  - intros H. apply Qnot_le_lt. intros Hle.
    apply Qle_bool_iff in Hle. congruence.
  - intros H. destruct (Qle_bool p q) eqn:E; [|done].
    apply Qle_bool_iff in E. exfalso. by apply (Qlt_not_le q p).
Qed.

Lemma is_fin_inv (a : num) : is_fin a = true → ∃ q, a = Fin q.
Proof. destruct a as [q|]; [by exists q|done]. Qed.

(** If [a < b] and [c] is not below [b], then [c <= a] fails. *)
Lemma nle_false_of_lt (a b c : num) :
  nlt a b = true → nlt c b = false → nle c a = false.
Proof.
  intros Hab Hcb. apply nlt_inv in Hab as (p & q & -> & -> & Hpq).
  destruct c as [r|]; [|done].
  apply nlt_Fin_false in Hcb. apply nle_Fin_false.
  by eapply Qlt_le_trans.
Qed.

Lemma nlt_false_of_lt (a b c : num) :
  nlt a b = true → nlt c b = false → nlt c a = false.
Proof.
  intros Hab Hcb. apply nlt_inv in Hab as (p & q & -> & -> & Hpq).
  destruct c as [r|]; [|done].
  apply nlt_Fin_false in Hcb. apply nlt_Fin_false.
  apply Qlt_le_weak. by eapply Qlt_le_trans.
Qed.

Lemma nlt_irrefl (a : num) : nlt a a = false.
Proof.
  destruct a as [p|]; [|done]. apply nlt_Fin_false. apply Qle_refl.
Qed.

(** ** The entering column *)

Lemma scan_found_seq (lastRow : list num) (n : nat) :
  scan_found lastRow n (foldl (scan_step lastRow) (None, Fin 0) (seq 0 n)).
Proof.
  induction n as [|n IH].
  - simpl. split; [done|]. intros j Hj. lia.
  - rewrite seq_S, foldl_snoc, Nat.add_0_l.
    destruct (foldl (scan_step lastRow) (None, Fin 0) (seq 0 n)) as [[c|] mv];
      unfold scan_found in *; cbn [fst snd scan_step] in *.
    + destruct IH as (Hc & -> & Hneg & Hmin & Hfirst).
      destruct (nlt (arr_get lastRow n) (arr_get lastRow c)) eqn:Hlt;
        cbn [fst snd].
      * split; [lia|]. split; [done|]. split.
        { apply nlt_inv in Hlt as (p & q & Hp & Hq & Hpq).
          rewrite Hq in Hneg. rewrite Hp. apply nlt_Fin.
          apply nlt_Fin in Hneg. by eapply Qlt_trans. }
        split.
        { intros j Hj. destruct (decide (j = n)) as [->|Hne].
          - apply nlt_irrefl.
          - eapply nlt_false_of_lt; [done|]. apply Hmin. lia. }
        intros j Hj. eapply nle_false_of_lt; [done|]. apply Hmin. lia.
      * split; [lia|]. split; [done|]. split; [done|]. split; [|done].
        intros j Hj. destruct (decide (j = n)) as [->|Hne]; [done|].
        apply Hmin. lia.
    + destruct IH as (-> & Hneg).
      destruct (nlt (arr_get lastRow n) (Fin 0)) eqn:Hlt; cbn [fst snd].
      * split; [lia|]. split; [done|]. split; [done|]. split.
        { intros j Hj. destruct (decide (j = n)) as [->|Hne].
          - apply nlt_irrefl.
          - eapply nlt_false_of_lt; [done|]. apply Hneg. lia. }
        intros j Hj. eapply nle_false_of_lt; [done|]. apply Hneg. lia.
      * split; [done|]. intros j Hj.
        destruct (decide (j = n)) as [->|Hne]; [done|]. apply Hneg. lia.
Qed.

Lemma scan_objective_found (N m : nat) (lastRow : list num) :
  scan_found lastRow (N + m) (scan_objective N m lastRow).
Proof.
  unfold scan_objective, totalCols.
  replace (N + m + 1 - 1) with (N + m) by lia.
  apply scan_found_seq.
Qed.

(** ** The leaving row *)

Lemma ngt_zero_inv (a : num) :
  ngt a (Fin 0) = true → ∃ q, a = Fin q ∧ (0 < q)%Q ∧ Qeq_bool q 0 = false.
Proof.
  unfold ngt. intros H. apply nlt_inv in H as (p & q & Hp & -> & Hlt).
  injection Hp as <-. exists q. split; [done|]. split; [done|].
  destruct (Qeq_bool q 0) eqn:E; [|done].
  apply Qeq_bool_eq in E. rewrite E in Hlt. by apply Qlt_irrefl in Hlt.
Qed.

Lemma ndiv_fin (a b : num) :
  is_fin a = true → ngt b (Fin 0) = true → is_fin (ndiv a b) = true.
Proof.
  intros Ha Hb. apply is_fin_inv in Ha as [p ->].
  apply ngt_zero_inv in Hb as (q & -> & _ & Hq). simpl. by rewrite Hq.
Qed.

Section LeavingRow.

Variables N m : nat.
Variable t : Tableau.
Variable pc : nat.

Lemma ratio_found_seq (n : nat) :
  ratio_found N m t pc n (foldl (ratio_step N m t pc) (None, Infinity) (seq 0 n)).
Proof.
  induction n as [|n IH].
  - simpl. split; [done|]. intros i Hi. lia.
  - rewrite seq_S, foldl_snoc, Nat.add_0_l.
    destruct (foldl (ratio_step N m t pc) (None, Infinity) (seq 0 n))
      as [[p|] mr]; unfold ratio_found in *;
      cbn [fst snd ratio_step] in *; fold (ratio N m t pc n).
    + destruct IH as (Hp & -> & Hpos & Hfin & Hmin & Hfirst).
      destruct (ngt (get t n pc) (Fin 0)) eqn:Hgt; cbn [fst snd].
      * cbn [lt_bound].
        destruct (nlt (ratio N m t pc n) (ratio N m t pc p)) eqn:Hlt; cbn [fst snd].
        -- split; [lia|]. split; [done|]. split; [done|]. split.
           { apply nlt_inv in Hlt as (a & b & -> & _ & _). done. }
           split.
           { intros i Hi Hi'. destruct (decide (i = n)) as [->|Hne].
             - apply nlt_irrefl.
             - eapply nlt_false_of_lt; [done|]. apply Hmin; [lia|done]. }
           intros i Hi Hi'. eapply nle_false_of_lt; [done|].
           apply Hmin; [lia|done].
        -- split; [lia|]. split; [done|]. split; [done|]. split; [done|].
           split; [|done].
           intros i Hi Hi'. destruct (decide (i = n)) as [->|Hne]; [done|].
           apply Hmin; [lia|done].
      * split; [lia|]. split; [done|]. split; [done|]. split; [done|].
        split; [|done].
        intros i Hi Hi'. destruct (decide (i = n)) as [->|Hne].
        { congruence. }
        apply Hmin; [lia|done].
    + destruct IH as (-> & Hnone).
      destruct (ngt (get t n pc) (Fin 0)) eqn:Hgt; cbn [fst snd].
      * cbn [lt_bound]. destruct (ratio N m t pc n) as [q|] eqn:Hr; cbn [fst snd].
        -- split; [lia|]. rewrite Hr. split; [done|]. split; [done|].
           split; [done|]. split.
           { intros i Hi Hi'. destruct (decide (i = n)) as [->|Hne].
             - rewrite Hr. apply nlt_irrefl.
             - rewrite Hnone; [done|lia|done]. }
           intros i Hi Hi'. rewrite Hnone; [done|lia|done].
        -- split; [done|]. intros i Hi Hi'.
           destruct (decide (i = n)) as [->|Hne]; [done|].
           apply Hnone; [lia|done].
      * split; [done|]. intros i Hi Hi'.
        destruct (decide (i = n)) as [->|Hne]; [congruence|].
        apply Hnone; [lia|done].
Qed.

Lemma find_pivot_row_found :
  ratio_found N m t pc m (ratio_scan N m t pc).
Proof. apply ratio_found_seq. Qed.

(** No positive entry in the entering column: the sentinel stays. *)
Lemma find_pivot_row_none :
  (∀ i, i < m → ngt (get t i pc) (Fin 0) = false) →
  find_pivot_row N m t pc = None.
Proof.
  intros Hno. pose proof find_pivot_row_found as H.
  unfold find_pivot_row. unfold ratio_found in H.
  destruct (ratio_scan N m t pc).1 as [p|]; [|done].
  destruct H as (Hp & _ & Hpos & _). rewrite Hno in Hpos; done.
Qed.

End LeavingRow.

Lemma arr_get_default_row (t : Tableau) (i j : nat) :
  arr_get (default [] (t !! i)) j = get t i j.
Proof. unfold get. destruct (t !! i); [done|]. done. Qed.

Lemma find_pivot_col_found (N m : nat) (t : Tableau) :
  match find_pivot_col N m t with
  | None => ∀ j, j < N + m → nlt (get t m j) (Fin 0) = false
  | Some pc =>
      pc < N + m ∧ nlt (get t m pc) (Fin 0) = true ∧
      (∀ j, j < N + m → nlt (get t m j) (get t m pc) = false) ∧
      (∀ j, j < pc → nle (get t m j) (get t m pc) = false)
  end.
Proof.
  unfold find_pivot_col, totalRows.
  replace (m + 1 - 1) with m by lia.
  pose proof (scan_objective_found N m (default [] (t !! m))) as H.
  unfold scan_found in H.
  destruct (scan_objective N m (default [] (t !! m))).1 as [pc|].
  - destruct H as (Hpc & _ & Hneg & Hmin & Hfirst).
    rewrite !arr_get_default_row in Hneg.
    split; [done|]. split; [done|]. split.
    + intros j Hj. specialize (Hmin j Hj).
      by rewrite !arr_get_default_row in Hmin.
    + intros j Hj. specialize (Hfirst j Hj).
      by rewrite !arr_get_default_row in Hfirst.
  - destruct H as [_ H]. intros j Hj. specialize (H j Hj).
    by rewrite arr_get_default_row in H.
Qed.

Lemma find_pivot_row_some (N m : nat) (t : Tableau) (pc pr : nat) :
  find_pivot_row N m t pc = Some pr →
  pr < m ∧ ngt (get t pr pc) (Fin 0) = true ∧
  is_fin (ratio N m t pc pr) = true ∧
  (∀ i, i < m → ngt (get t i pc) (Fin 0) = true →
        nlt (ratio N m t pc i) (ratio N m t pc pr) = false) ∧
  (∀ i, i < pr → ngt (get t i pc) (Fin 0) = true →
        nle (ratio N m t pc i) (ratio N m t pc pr) = false).
Proof.
  unfold find_pivot_row. intros H.
  pose proof (find_pivot_row_found N m t pc) as Hf.
  unfold ratio_found in Hf. rewrite H in Hf.
  destruct Hf as (Hp & _ & Hpos & Hfin & Hmin & Hfirst). done.
Qed.

(** ** Iterations of the loop *)

Lemma while_loop_after (N m k r : nat) (s s' : LoopState) :
  after_pivots N m k s = Some s' →
  while_loop N m (k + r) s = while_loop N m r s'.
Proof.
  revert s. induction k as [|k IH]; intros s H; simpl in *.
  - by injection H as ->.
  - destruct (iteration N m s) as [| |s1]; try done. by apply IH.
Qed.

Lemma while_loop_exit (N m r : nat) (s0 : LoopState) :
  LoopExit N m r s0 (while_loop N m r s0).
Proof.
  revert s0. induction r as [|r IH]; intros s0.
  - simpl. by apply exit_ceiling.
  - simpl. destruct (iteration N m s0) as [s'|res|s'] eqn:Hit.
    + by apply (exit_break N m (S r) s0 0 s0 s'); [lia| |].
    + by apply (exit_return N m (S r) s0 0 s0 res); [lia| |].
    + destruct (IH s') as [k s s'' Hk Hs Hbr|k s res Hk Hs Hret|s Hs].
      * apply (exit_break N m (S r) s0 (S k) s s''); [lia| |done].
        simpl. by rewrite Hit.
      * apply (exit_return N m (S r) s0 (S k) s res); [lia| |done].
        simpl. by rewrite Hit.
      * apply exit_ceiling. simpl. by rewrite Hit.
Qed.

(** ** Arithmetic of one pivot cell *)

Lemma neq_inv (a b : num) :
  neq a b = true → ∃ p q, a = Fin p ∧ b = Fin q ∧ (p == q)%Q.
Proof.
  destruct a as [p|], b as [q|]; try done.
  intros H. exists p, q. by apply Qeq_bool_iff in H.
Qed.

Lemma pivot_cell_self (pe : num) :
  ngt pe (Fin 0) = true → neq (ndiv pe pe) (Fin 1) = true.
Proof.
  intros H. apply ngt_zero_inv in H as (q & -> & Hpos & Hq).
  simpl. rewrite Hq. apply Qeq_bool_iff.
  apply Qeq_bool_neq in Hq. by field.
Qed.

Lemma pivot_cell_row (a pe : num) :
  ngt pe (Fin 0) = true → neq a (Fin 0) = true →
  neq (ndiv a pe) (Fin 0) = true.
Proof.
  intros H Ha. apply ngt_zero_inv in H as (q & -> & Hpos & Hq).
  apply neq_inv in Ha as (p & z & -> & Hz & Hp). injection Hz as <-.
  simpl. rewrite Hq. apply Qeq_bool_iff.
  apply Qeq_bool_neq in Hq. rewrite Hp. by field.
Qed.

Lemma pivot_cell_col (a pe : num) :
  is_fin a = true → ngt pe (Fin 0) = true →
  neq (nsub a (nmul a (ndiv pe pe))) (Fin 0) = true.
Proof.
  intros Ha H. apply is_fin_inv in Ha as [p ->].
  apply ngt_zero_inv in H as (q & -> & Hpos & Hq).
  simpl. rewrite Hq. simpl. apply Qeq_bool_iff.
  apply Qeq_bool_neq in Hq. by field.
Qed.

Lemma pivot_cell_other (a f x pe e : num) :
  is_fin f = true → ngt pe (Fin 0) = true →
  neq x (Fin 0) = true → neq a e = true →
  neq (nsub a (nmul f (ndiv x pe))) e = true.
Proof.
  intros Hf H Hx Ha. apply is_fin_inv in Hf as [r ->].
  apply ngt_zero_inv in H as (q & -> & Hpos & Hq).
  apply neq_inv in Hx as (p & z & -> & Hz & Hp). injection Hz as <-.
  apply neq_inv in Ha as (u & v & -> & -> & Huv).
  simpl. rewrite Hq. simpl. apply Qeq_bool_iff.
  apply Qeq_bool_neq in Hq. rewrite Hp, Huv. by field.
Qed.

Lemma pivot_cell_fin (a f x pe : num) :
  is_fin a = true → is_fin f = true → is_fin x = true →
  ngt pe (Fin 0) = true →
  is_fin (nsub a (nmul f (ndiv x pe))) = true.
Proof.
  intros Ha Hf Hx H. apply is_fin_inv in Ha as [p ->].
  apply is_fin_inv in Hf as [r ->]. apply is_fin_inv in Hx as [u ->].
  apply ngt_zero_inv in H as (q & -> & Hpos & Hq).
  simpl. by rewrite Hq.
Qed.

(** ** Well-formed models and the invariant of the loop *)

Lemma unit_column_spec (rows : nat) (t : Tableau) (c k : nat) :
  unit_column rows t c k = true ↔
  ∀ i, i < rows →
    neq (get t i c) (if decide (i = k) then Fin 1 else Fin 0) = true.
Proof.
  unfold unit_column. rewrite forallb_forall. split.
  - intros H i Hi. apply H. apply in_seq. lia.
  - intros H i Hi. apply in_seq in Hi. apply H. lia.
Qed.


Lemma forallb_is_fin_get (l : list num) (j : nat) :
  forallb is_fin l = true → j < length l → is_fin (arr_get l j) = true.
Proof.
  intros H Hj. destruct (lookup_lt_is_Some_2 l j Hj) as [x Hx].
  rewrite (arr_get_lookup l j x Hx).
  rewrite forallb_forall in H. apply H.
  apply list_elem_of_In. by eapply list_elem_of_lookup_2.
Qed.

Lemma nneg_fin (a : num) : is_fin a = true → is_fin (nneg a) = true.
Proof. by destruct a. Qed.

Lemma initial_cell_fin (model : LPModel.t) (i j : nat) :
  well_formed model = true → is_fin (initial_cell model i j) = true.
Proof.
  unfold well_formed. rewrite !andb_true_iff.
  intros [[Hlen Hobj] Hcs]. apply Nat.eqb_eq in Hlen.
  unfold initial_cell.
  destruct (LPModel.constraints model !! i) as [c|] eqn:Hc.
  - rewrite forallb_forall in Hcs.
    assert (Hwc : well_formed_constraint (LPModel.numVariables model) c = true).
    { apply Hcs. apply list_elem_of_In. by eapply list_elem_of_lookup_2. }
    unfold well_formed_constraint in Hwc. rewrite !andb_true_iff in Hwc.
    destruct Hwc as [[Hclen Hcfin] Hrhs]. apply Nat.eqb_eq in Hclen.
    repeat case_decide; try done.
    apply forallb_is_fin_get; [done|lia].
  - case_decide; [|done].
    assert (is_fin (arr_get (LPModel.objectiveCoefficients model) j) = true)
      by (apply forallb_is_fin_get; [done|lia]).
    destruct (isMinimize (LPModel.type model)); [done|by apply nneg_fin].
Qed.

Lemma initial_state_eq (model : LPModel.t) :
  initial_state model =
    mkLoop (initial_tableau model).1 (initial_tableau model).2 [].
Proof. unfold initial_state. by destruct (initial_tableau model). Qed.

Lemma initial_inv (model : LPModel.t) :
  well_formed model = true →
  Inv (LPModel.numVariables model) (length (LPModel.constraints model))
      (initial_state model).
Proof.
  intros Hwf. rewrite initial_state_eq.
  destruct (initial_tableau_spec model) as (Hr & Hb & Hg).
  set (N := LPModel.numVariables model) in *.
  set (m := length (LPModel.constraints model)) in *.
  split; cbn [tableau basicVariables].
  - done.
  - intros i j Hi Hj. rewrite Hg by done. by apply initial_cell_fin.
  - rewrite Hb. by rewrite length_fmap, length_seq.
  - intros k Hk. exists (N + k). split.
    { rewrite Hb, list_lookup_fmap, lookup_seq_lt by done. done. }
    split; [lia|]. apply unit_column_spec. intros i Hi.
    rewrite Hg by lia. unfold initial_cell. fold N. fold m.
    destruct (LPModel.constraints model !! i) as [c|] eqn:Hc.
    + rewrite (decide_False (P := N + k < N)) by lia.
      destruct (decide (i = k)) as [->|Hne].
      * by rewrite decide_True.
      * rewrite (decide_False (P := N + k = N + i)) by lia.
        rewrite (decide_False (P := N + k = N + m)) by lia. done.
    + apply lookup_ge_None_1 in Hc. fold m in Hc.
      rewrite (decide_False (P := N + k < N)) by lia.
      rewrite decide_False by lia. done.
Qed.

Lemma iteration_next (N m : nat) (s s' : LoopState) :
  iteration N m s = Next s' →
  ∃ pr pc,
    find_pivot_col N m (tableau s) = Some pc ∧
    find_pivot_row N m (tableau s) pc = Some pr ∧
    s' = mkLoop (pivot N m pr pc (tableau s))
                (<[pr := pc]> (basicVariables s))
                (steps s ++ [pivot_step N s pr pc]).
Proof.
  unfold iteration. intros H.
  destruct (find_pivot_col N m (tableau s)) as [pc|]; [|done].
  destruct (find_pivot_row N m (tableau s) pc) as [pr|] eqn:Hpr; [|done].
  injection H as <-. by exists pr, pc.
Qed.

Lemma iteration_break (N m : nat) (s s' : LoopState) :
  iteration N m s = Break s' →
  find_pivot_col N m (tableau s) = None ∧
  s' = mkLoop (tableau s) (basicVariables s) (steps s ++ [optimal_step s]).
Proof.
  unfold iteration. intros H.
  destruct (find_pivot_col N m (tableau s)) as [pc|].
  - destruct (find_pivot_row N m (tableau s) pc); done.
  - by injection H as <-.
Qed.

Lemma iteration_return (N m : nat) (s : LoopState) (res : SimplexResult.t) :
  iteration N m s = Return res →
  ∃ pc, find_pivot_col N m (tableau s) = Some pc ∧
        find_pivot_row N m (tableau s) pc = None ∧
        res = unbounded_result s.
Proof.
  unfold iteration. intros H.
  destruct (find_pivot_col N m (tableau s)) as [pc|]; [|done].
  destruct (find_pivot_row N m (tableau s) pc) eqn:Hpr; [done|].
  injection H as <-. by exists pc.
Qed.

(** A pivot keeps the invariant: the entering column becomes the unit
    vector of the pivot row and the other basic columns are untouched. *)
Lemma pivot_inv (N m : nat) (s : LoopState) (pr pc : nat) :
  Inv N m s →
  find_pivot_col N m (tableau s) = Some pc →
  find_pivot_row N m (tableau s) pc = Some pr →
  Inv N m (mkLoop (pivot N m pr pc (tableau s))
                  (<[pr := pc]> (basicVariables s))
                  (steps s ++ [pivot_step N s pr pc])).
Proof.
  intros [Hr Hfin Hlen Hbasis] Hpc Hpr.
  pose proof (find_pivot_col_found N m (tableau s)) as Hcol.
  rewrite Hpc in Hcol. destruct Hcol as (HpcN & Hneg & _).
  apply find_pivot_row_some in Hpr as (Hprm & Hpos & _).
  destruct (pivot_spec N m pr pc (tableau s)) as [Hr' Hg']; [done|lia|].
  set (t := tableau s) in *. set (b := basicVariables s) in *.
  split; cbn [tableau basicVariables].
  - done.
  - intros i j Hi Hj. rewrite Hg' by done.
    destruct (decide (i = pr)) as [->|Hne].
    + apply ndiv_fin; [|done]. apply Hfin; lia.
    + apply pivot_cell_fin; try done; apply Hfin; lia.
  - by rewrite length_insert.
  - intros k Hk. destruct (decide (k = pr)) as [->|Hne].
    + exists pc. split.
      { apply list_lookup_insert_eq. lia. }
      split; [done|]. apply unit_column_spec. intros i Hi.
      rewrite Hg' by lia.
      destruct (decide (i = pr)) as [->|Hne].
      * by apply pivot_cell_self.
      * apply pivot_cell_col; [|done]. apply Hfin; lia.
    + destruct (Hbasis k Hk) as (c & Hc & HcN & Hunit).
      exists c. split.
      { by rewrite list_lookup_insert_ne. }
      split; [done|]. rewrite unit_column_spec in Hunit.
      apply unit_column_spec. intros i Hi. rewrite Hg' by lia.
      assert (Hzero : neq (get t pr c) (Fin 0) = true).
      { specialize (Hunit pr). rewrite decide_False in Hunit by done.
        apply Hunit. lia. }
      destruct (decide (i = pr)) as [->|Hne'].
      * rewrite decide_False by done. by apply pivot_cell_row.
      * apply pivot_cell_other; try done; [apply Hfin; lia|by apply Hunit].
Qed.

Lemma iteration_inv (N m : nat) (s s' : LoopState) :
  Inv N m s → iteration N m s = Next s' → Inv N m s'.
Proof.
  intros HI H. apply iteration_next in H as (pr & pc & Hpc & Hpr & ->).
  by apply pivot_inv.
Qed.

Lemma after_pivots_inv (N m k : nat) (s s' : LoopState) :
  Inv N m s → after_pivots N m k s = Some s' → Inv N m s'.
Proof.
  revert s. induction k as [|k IH]; intros s HI H; simpl in H.
  - by injection H as <-.
  - destruct (iteration N m s) as [| |s1] eqn:Hit; try done.
    eapply IH; [|done]. by eapply iteration_inv.
Qed.

(** Every state the loop of [solveSimplex] goes through on a well-formed
    model satisfies the invariant. *)
Lemma reachable_inv (model : LPModel.t) (k : nat) (s : LoopState) :
  well_formed model = true →
  after_pivots (LPModel.numVariables model)
               (length (LPModel.constraints model)) k
               (initial_state model) = Some s →
  Inv (LPModel.numVariables model) (length (LPModel.constraints model)) s.
Proof.
  intros Hwf H. eapply after_pivots_inv; [|done]. by apply initial_inv.
Qed.

(** ** Reaching a state *)

Lemma after_pivots_steps (N m k : nat) (s s' : LoopState) :
  after_pivots N m k s = Some s' →
  ∃ new, steps s' = steps s ++ new ∧ length new = k ∧
         Forall (λ st, SimplexStep.isOptimal st = false) new.
Proof.
  revert s. induction k as [|k IH]; intros s H; simpl in H.
  - injection H as <-. exists []. by rewrite app_nil_r.
  - destruct (iteration N m s) as [| |s1] eqn:Hit; try done.
    apply iteration_next in Hit as (pr & pc & _ & _ & ->).
    apply IH in H as (new & Hnew & Hlen & Hall). cbn [steps] in Hnew.
    exists (pivot_step N s pr pc :: new). split.
    { by rewrite Hnew, <- app_assoc. }
    split; [simpl; lia|]. by constructor.
Qed.

Lemma reached_steps (model : LPModel.t) (k : nat) (s : LoopState) :
  reached model k s →
  length (steps s) = k ∧
  Forall (λ st, SimplexStep.isOptimal st = false) (steps s).
Proof.
  intros H. apply after_pivots_steps in H as (new & Hnew & Hlen & Hall).
  rewrite initial_state_eq in Hnew. cbn [steps] in Hnew.
  rewrite app_nil_l in Hnew. by rewrite Hnew.
Qed.

Lemma solveSimplex_after (model : LPModel.t) (k : nat) (s : LoopState) :
  reached model k s → k ≤ maxIterations →
  solveSimplex model =
    match while_loop (LPModel.numVariables model)
                     (length (LPModel.constraints model))
                     (maxIterations - k) s with
    | inr result => result
    | inl s' =>
        extract_solution (LPModel.numVariables model)
                         (length (LPModel.constraints model))
                         (isMinimize (LPModel.type model)) s'
    end.
Proof.
  intros H Hk. unfold solveSimplex.
  replace maxIterations with (k + (maxIterations - k)) at 1 by lia.
  by rewrite (while_loop_after _ _ _ _ _ _ H).
Qed.

(** ** C1: unbounded problems *)

(** C1.  When, in an iteration of [solveSimplex], no constraint row has a
    strictly positive entry in the entering column, the function returns at
    once: status UNBOUNDED, no optimal value ([null]), no variable values,
    and the trace accumulated by the earlier iterations -- one step per
    pivot made so far, none for the iteration that found the problem
    unbounded. *)
Theorem unbounded_returns_trace_so_far (model : LPModel.t) (k : nat)
    (s : LoopState) (pivotCol : nat) :
  k < maxIterations →
  reached model k s →
  find_pivot_col (LPModel.numVariables model)
                 (length (LPModel.constraints model)) (tableau s)
    = Some pivotCol →
  (∀ i, i < length (LPModel.constraints model) →
        ngt (get (tableau s) i pivotCol) (Fin 0) = false) →
  solveSimplex model = SimplexResult.mk None [] UNBOUNDED (steps s) ∧
  length (steps s) = k.
Proof.
  intros Hk Hs Hpc Hno. split; [|by apply (reached_steps model)].
  rewrite (solveSimplex_after model k s Hs) by lia.
  destruct (maxIterations - k) as [|r] eqn:Hr; [lia|].
  cbn [while_loop]. unfold iteration. rewrite Hpc.
  by rewrite find_pivot_row_none.
Qed.

Lemma unbounded_returns_trace_so_far_witness :
  solveSimplex unbounded_model =
    SimplexResult.mk None [] UNBOUNDED (steps unbounded_state) ∧
  length (steps unbounded_state) = 1.
Proof.
  apply (unbounded_returns_trace_so_far unbounded_model 1 unbounded_state 1).
  - unfold maxIterations. lia.
  - reflexivity.
  - reflexivity.
  - intros i Hi. simpl in Hi. destruct i; [reflexivity|lia].
Defined.

(** The example of the specification: maximize [x1] subject to
    [x2 <= 10] only. *)
Example unbounded_at_once :
  solveSimplex
    (LPModel.mk MAXIMIZE 2 ["x1"; "x2"]%string [Fin 1; Fin 0]
       [Constraint.mk "c1" [Fin 0; Fin 1] LESS_THAN_EQ (Fin 10)])
  = SimplexResult.mk None [] UNBOUNDED [].
Proof. reflexivity. Qed.

(** ** C4: the initial tableau *)

(** C4.  For a model with [N] variables and [m] constraints the initial
    tableau has [m + 1] rows of [N + m + 1] cells.  Constraint row [i]
    holds the coefficients of constraint [i] in the columns [0 .. N-1], 1
    in the slack column [N + i], 0 in every other slack column and the
    right-hand side in the last column.  The objective row holds, in the
    columns [0 .. N-1], the negation of the objective coefficients after
    the MIN-to-MAX sign flip, and 0 as its right-hand side.  The initial
    basis gives the slack column [N + i] to row [i]. *)
Theorem initial_tableau_layout (model : LPModel.t) :
  length (initial_tableau model).1 = length (LPModel.constraints model) + 1 ∧
  Forall (λ row, length row = LPModel.numVariables model
                              + length (LPModel.constraints model) + 1)
         (initial_tableau model).1 ∧
  (∀ i c, LPModel.constraints model !! i = Some c →
     (∀ j, j < LPModel.numVariables model →
        get (initial_tableau model).1 i j
          = arr_get (Constraint.coefficients c) j) ∧
     (∀ k, k < length (LPModel.constraints model) →
        get (initial_tableau model).1 i (LPModel.numVariables model + k)
          = if decide (k = i) then Fin 1 else Fin 0) ∧
     get (initial_tableau model).1 i
         (LPModel.numVariables model + length (LPModel.constraints model))
       = Constraint.rhs c) ∧
  (∀ j, j < LPModel.numVariables model →
     get (initial_tableau model).1 (length (LPModel.constraints model)) j
       = nneg (maximized_coefficient model j)) ∧
  get (initial_tableau model).1 (length (LPModel.constraints model))
      (LPModel.numVariables model + length (LPModel.constraints model))
    = Fin 0 ∧
  length (initial_tableau model).2 = length (LPModel.constraints model) ∧
  (∀ i, i < length (LPModel.constraints model) →
     (initial_tableau model).2 !! i = Some (LPModel.numVariables model + i)).
Proof.
  destruct (initial_tableau_spec model) as ([HR HC] & Hb & Hg).
  set (N := LPModel.numVariables model) in *.
  set (m := length (LPModel.constraints model)) in *.
  split; [done|]. split; [done|]. split.
  { intros i c Hc.
    assert (Hi : i < m) by (by eapply lookup_lt_Some).
    split; [|split].
    - intros j Hj. rewrite Hg by lia. unfold initial_cell. fold N.
      rewrite Hc. by rewrite decide_True.
    - intros k Hk. rewrite Hg by lia. unfold initial_cell. fold N. fold m.
      rewrite Hc. rewrite (decide_False (P := N + k < N)) by lia.
      destruct (decide (k = i)) as [->|Hne].
      + by rewrite decide_True.
      + rewrite (decide_False (P := N + k = N + i)) by lia.
        by rewrite (decide_False (P := N + k = N + m)) by lia.
    - rewrite Hg by lia. unfold initial_cell. fold N. fold m.
      rewrite Hc. rewrite (decide_False (P := N + m < N)) by lia.
      rewrite (decide_False (P := N + m = N + i)) by lia.
      by rewrite decide_True. }
  assert (Hnone : LPModel.constraints model !! m = None).
  { apply lookup_ge_None_2. unfold m. lia. }
  split.
  { intros j Hj. rewrite Hg by lia. unfold initial_cell. fold N.
    rewrite Hnone. rewrite decide_True by done.
    unfold maximized_coefficient.
    destruct (isMinimize (LPModel.type model)); [|done].
    by rewrite nneg_involutive. }
  split.
  { rewrite Hg by lia. unfold initial_cell. fold N.
    rewrite Hnone. by rewrite decide_False by lia. }
  split.
  { by rewrite Hb, length_fmap, length_seq. }
  intros i Hi. by rewrite Hb, list_lookup_fmap, lookup_seq_lt.
Qed.

(** The tableau of the example of the specification. *)
Example initial_tableau_example :
  initial_tableau
    (LPModel.mk MAXIMIZE 2 ["x1"; "x2"]%string [Fin 10; Fin 20]
       [Constraint.mk "a" [Fin 1; Fin 1] LESS_THAN_EQ (Fin 50);
        Constraint.mk "b" [Fin 2; Fin 4] LESS_THAN_EQ (Fin 120)])
  = ([[Fin 1; Fin 1; Fin 1; Fin 0; Fin 50];
      [Fin 2; Fin 4; Fin 0; Fin 1; Fin 120];
      [Fin (-10); Fin (-20); Fin 0; Fin 0; Fin 0]],
     [2; 3]).
Proof. reflexivity. Qed.

(** ** C7: the basis after every pivot *)

Lemma inv_basis_nodup (N m : nat) (s : LoopState) :
  Inv N m s → NoDup (basicVariables s).
Proof.
  intros [Hr Hfin Hlen Hbasis]. apply NoDup_alt. intros k k' c Hk Hk'.
  destruct (decide (k = k')) as [|Hne]; [done|]. exfalso.
  assert (Hkm : k < m) by (apply lookup_lt_Some in Hk; lia).
  assert (Hkm' : k' < m) by (apply lookup_lt_Some in Hk'; lia).
  destruct (Hbasis k Hkm) as (c1 & Hc1 & _ & Hu1).
  destruct (Hbasis k' Hkm') as (c2 & Hc2 & _ & Hu2).
  assert (c1 = c) by congruence. assert (c2 = c) by congruence. subst.
  rewrite unit_column_spec in Hu1, Hu2.
  specialize (Hu1 k). specialize (Hu2 k).
  rewrite decide_True in Hu1 by done. rewrite decide_False in Hu2 by done.
  apply neq_inv in Hu1 as (p & q & Hp & Hq & Hpq); [|lia].
  apply neq_inv in Hu2 as (p' & q' & Hp' & Hq' & Hpq'); [|lia].
  injection Hq as <-. injection Hq' as <-.
  rewrite Hp in Hp'. injection Hp' as <-.
  rewrite Hpq in Hpq'. discriminate.
Qed.



(** ** C5: the optimality test and the entering column *)






(** ** C6: the ratio test *)



(** The tie is broken towards row 0. *)
Example tie_broken_by_lowest_row :
  ratio 2 2 (tableau (initial_state tie_model)) 0 0 = Fin (4 # 2) ∧
  ratio 2 2 (tableau (initial_state tie_model)) 0 1 = Fin (2 # 1) ∧
  find_pivot_row 2 2 (tableau (initial_state tie_model)) 0 = Some 0.
Proof. repeat split; reflexivity. Qed.

(** ** C8: solution extraction *)

Lemma final_state_reached (N m r : nat) (s0 s : LoopState) :
  while_loop N m r s0 = inl s →
  ∃ k s1, k ≤ r ∧ after_pivots N m k s0 = Some s1 ∧
          tableau s = tableau s1 ∧ basicVariables s = basicVariables s1.
Proof.
  intros H. pose proof (while_loop_exit N m r s0) as Hexit.
  rewrite H in Hexit.
  inversion Hexit as [k s1 s' Hk Hs1 Hbr|k s1 res Hk Hs1 Hret|s1 Hs1]; subst.
  - apply iteration_break in Hbr as [_ ->].
    exists k, s1. split; [lia|]. done.
  - exists r, s. done.
Qed.

Lemma extract_values_prefix (N m : nat) (t : Tableau) (b : list nat)
    (n : nat) :
  n ≤ length b → NoDup b →
  let vv := foldl (λ variableValues i,
                     match b !! i with
                     | Some basicVarIndex =>
                         if decide (basicVarIndex < N)
                         then arr_set variableValues basicVarIndex
                                      (get t i (totalCols N m - 1))
                         else variableValues
                     | None => variableValues
                     end)
                  (replicate N (Fin 0)) (seq 0 n) in
  length vv = N ∧
  (∀ i c, i < n → b !! i = Some c → c < N →
          vv !! c = Some (get t i (totalCols N m - 1))) ∧
  (∀ j, j < N → (∀ i, i < n → b !! i ≠ Some j) → vv !! j = Some (Fin 0)).
Proof.
  intros Hn Hnd. induction n as [|n IH].
  - cbn [seq foldl]. split; [by rewrite length_replicate|]. split.
    + intros i c Hi. lia.
    + intros j Hj _. by apply lookup_replicate_2.
  - rewrite seq_S, foldl_snoc, Nat.add_0_l.
    destruct IH as (IHlen & IHbasic & IHzero); [lia|].
    set (acc := foldl _ (replicate N (Fin 0)) (seq 0 n)) in *.
    destruct (lookup_lt_is_Some_2 b n) as [c Hc]; [lia|]. rewrite Hc.
    destruct (decide (c < N)) as [HcN|HcN].
    + rewrite arr_set_lt by lia. split; [by rewrite length_insert|]. split.
      * intros i c' Hi Hc' Hc'N. destruct (decide (i = n)) as [->|Hne].
        -- assert (c' = c) by congruence. subst c'.
           apply list_lookup_insert_eq. lia.
        -- assert (c ≠ c').
           { intros <-. apply Hne. by eapply NoDup_lookup. }
           rewrite list_lookup_insert_ne by done.
           apply IHbasic; [lia|done|done].
      * intros j Hj Hnot. assert (c ≠ j).
        { intros <-. by apply (Hnot n); [lia|]. }
        rewrite list_lookup_insert_ne by done.
        apply IHzero; [done|]. intros i Hi. apply Hnot. lia.
    + split; [done|]. split.
      * intros i c' Hi Hc' Hc'N. destruct (decide (i = n)) as [->|Hne].
        -- assert (c' = c) by congruence. subst c'. lia.
        -- apply IHbasic; [lia|done|done].
      * intros j Hj Hnot. apply IHzero; [done|].
        intros i Hi. apply Hnot. lia.
Qed.

Lemma extract_values_spec (N m : nat) (t : Tableau) (b : list nat) :
  length b = m → NoDup b →
  length (extract_values N m t b) = N ∧
  (∀ i c, b !! i = Some c → c < N →
          extract_values N m t b !! c = Some (get t i (N + m))) ∧
  (∀ j, j < N → j ∉ b → extract_values N m t b !! j = Some (Fin 0)).
Proof.
  intros Hlen Hnd.
  destruct (extract_values_prefix N m t b m) as (Hl & Hbasic & Hzero);
    [lia|done|].
  unfold extract_values. unfold totalCols in *.
  replace (N + m + 1 - 1) with (N + m) in * by lia.
  split; [done|]. split.
  - intros i c Hc HcN. apply Hbasic; [|done|done].
    apply lookup_lt_Some in Hc. lia.
  - intros j Hj Hnot. apply Hzero; [done|]. intros i Hi Hc.
    apply Hnot. by eapply list_elem_of_lookup_2.
Qed.

(** C8.  When [solveSimplex] returns OPTIMAL on a well-formed model, with
    [s] the state the loop was left in: [variableValues] has exactly
    [numVariables] entries; for every constraint row whose basic variable
    is a decision variable, the entry of that variable is the right-hand
    side of the row; every decision variable outside the final basis, in
    particular every decision variable that was never made basic, has
    value 0; and [optimalValue] is the right-hand side of the objective
    row, negated for a MINIMIZE model. *)
Theorem optimal_solution_extraction (model : LPModel.t) :
  well_formed model = true →
  SimplexResult.status (solveSimplex model) = OPTIMAL →
  ∃ s,
    while_loop (LPModel.numVariables model)
               (length (LPModel.constraints model)) maxIterations
               (initial_state model) = inl s ∧
    SimplexResult.steps (solveSimplex model) = steps s ∧
    length (SimplexResult.variableValues (solveSimplex model))
      = LPModel.numVariables model ∧
    (∀ i c, i < length (LPModel.constraints model) →
       basicVariables s !! i = Some c → c < LPModel.numVariables model →
       SimplexResult.variableValues (solveSimplex model) !! c
         = Some (get (tableau s) i
                     (LPModel.numVariables model
                      + length (LPModel.constraints model)))) ∧
    (∀ j, j < LPModel.numVariables model → j ∉ basicVariables s →
       SimplexResult.variableValues (solveSimplex model) !! j
         = Some (Fin 0)) ∧
    (∀ j, j < LPModel.numVariables model →
       (∀ k s', reached model k s' → j ∉ basicVariables s') →
       SimplexResult.variableValues (solveSimplex model) !! j
         = Some (Fin 0)) ∧
    SimplexResult.optimalValue (solveSimplex model)
      = Some (let z := get (tableau s) (length (LPModel.constraints model))
                           (LPModel.numVariables model
                            + length (LPModel.constraints model)) in
              if isMinimize (LPModel.type model) then nneg z else z).
Proof.
  intros Hwf Hstatus. unfold solveSimplex in *.
  set (N := LPModel.numVariables model) in *.
  set (m := length (LPModel.constraints model)) in *.
  destruct (while_loop N m maxIterations (initial_state model))
    as [s|res] eqn:Hloop.
  - exists s. split; [done|]. split; [done|].
    destruct (final_state_reached N m _ _ _ Hloop)
      as (k & s1 & Hk & Hs1 & Ht & Hb).
    pose proof (reachable_inv model k s1 Hwf Hs1) as HI.
    assert (Hnd : NoDup (basicVariables s)).
    { rewrite Hb. by eapply inv_basis_nodup. }
    assert (Hlen : length (basicVariables s) = m).
    { rewrite Hb. by destruct HI. }
    destruct (extract_values_spec N m (tableau s) (basicVariables s) Hlen Hnd)
      as (Hl & Hbasic & Hzero).
    cbn [extract_solution SimplexResult.variableValues
         SimplexResult.optimalValue].
    split; [done|]. split.
    { intros i c _ Hc HcN. by apply Hbasic. }
    split; [done|]. split.
    { intros j Hj Hnever. apply Hzero; [done|]. rewrite Hb.
      by apply (Hnever k s1). }
    unfold totalRows, totalCols.
    replace (m + 1 - 1) with m by lia.
    replace (N + m + 1 - 1) with (N + m) by lia.
    by destruct (isMinimize (LPModel.type model)).
  - exfalso.
    pose proof (while_loop_exit N m maxIterations (initial_state model))
      as Hexit.
    rewrite Hloop in Hexit.
    inversion Hexit as [|k s1 res' Hk Hs1 Hret|]; subst.
    apply iteration_return in Hret as (pc & _ & _ & ->).
    cbn in Hstatus. discriminate.
Qed.

Lemma optimal_solution_extraction_witness :
  ∃ s,
    while_loop 2 2 maxIterations (initial_state example_model) = inl s ∧
    SimplexResult.steps (solveSimplex example_model) = steps s ∧
    length (SimplexResult.variableValues (solveSimplex example_model)) = 2 ∧
    (∀ i c, i < 2 → basicVariables s !! i = Some c → c < 2 →
       SimplexResult.variableValues (solveSimplex example_model) !! c
         = Some (get (tableau s) i (2 + 2))) ∧
    (∀ j, j < 2 → j ∉ basicVariables s →
       SimplexResult.variableValues (solveSimplex example_model) !! j
         = Some (Fin 0)) ∧
    (∀ j, j < 2 →
       (∀ k s', reached example_model k s' → j ∉ basicVariables s') →
       SimplexResult.variableValues (solveSimplex example_model) !! j
         = Some (Fin 0)) ∧
    SimplexResult.optimalValue (solveSimplex example_model)
      = Some (let z := get (tableau s) 2 (2 + 2) in
              if isMinimize MAXIMIZE then nneg z else z).
Proof.
  apply (optimal_solution_extraction example_model).
  - reflexivity.
  - reflexivity.
Defined.

(** The solution of the example: [x2 = 30] basic in row 1, [x1 = 0]
    non-basic, objective value [600]. *)
Example example_solution :
  SimplexResult.status (solveSimplex example_model) = OPTIMAL ∧
  SimplexResult.variableValues (solveSimplex example_model)
    = [Fin 0; Fin (120 # 4)] ∧
  SimplexResult.optimalValue (solveSimplex example_model)
    = Some (Fin (2400 # 4)).
Proof. repeat split; reflexivity. Qed.

(** ** Models with the same initial tableau *)

Lemma initial_tableau_ext (model1 model2 : LPModel.t) :
  LPModel.numVariables model1 = LPModel.numVariables model2 →
  length (LPModel.constraints model1) = length (LPModel.constraints model2) →
  (∀ i j, i < length (LPModel.constraints model1) + 1 →
          j < LPModel.numVariables model1
              + length (LPModel.constraints model1) + 1 →
          initial_cell model1 i j = initial_cell model2 i j) →
  initial_tableau model1 = initial_tableau model2.
Proof.
  intros HN Hm Hcell.
  destruct (initial_tableau_spec model1) as (Hr1 & Hb1 & Hg1).
  destruct (initial_tableau_spec model2) as (Hr2 & Hb2 & Hg2).
  rewrite <- HN, <- Hm in Hr2, Hb2, Hg2.
  destruct (initial_tableau model1) as [t1 b1].
  destruct (initial_tableau model2) as [t2 b2]. cbn [fst snd] in *.
  f_equal; [|congruence].
  eapply rect_ext; [done|done|]. intros i j Hi Hj.
  rewrite Hg1, Hg2 by done. by apply Hcell.
Qed.

Lemma solveSimplex_ext (model1 model2 : LPModel.t) :
  LPModel.numVariables model1 = LPModel.numVariables model2 →
  length (LPModel.constraints model1) = length (LPModel.constraints model2) →
  isMinimize (LPModel.type model1) = isMinimize (LPModel.type model2) →
  initial_tableau model1 = initial_tableau model2 →
  solveSimplex model1 = solveSimplex model2.
Proof.
  intros HN Hm Hmin Ht. unfold solveSimplex, initial_state.
  by rewrite HN, Hm, Hmin, Ht.
Qed.

(** ** C9: MINIMIZE is MAXIMIZE of the negated objective *)

Lemma while_loop_inr (N m r : nat) (s0 : LoopState) (res : SimplexResult.t) :
  while_loop N m r s0 = inr res → ∃ s, res = unbounded_result s.
Proof.
  intros H. pose proof (while_loop_exit N m r s0) as Hexit.
  rewrite H in Hexit.
  inversion Hexit as [|k s1 res' Hk Hs1 Hret|]; subst.
  apply iteration_return in Hret as (pc & _ & _ & ->). by exists s1.
Qed.

Lemma arr_get_fmap_nneg (l : list num) (j : nat) :
  arr_get (nneg <$> l) j = nneg (arr_get l j).
Proof.
  unfold arr_get. rewrite list_lookup_fmap. by destruct (l !! j).
Qed.

(** C9.  Solving a MINIMIZE model is solving the MAXIMIZE model with the
    negated objective over the same constraints: the two runs of
    [solveSimplex] have the same status, the same trace and the same
    variable values, and the optimal value of the minimization is the
    negation of the optimal value of the maximization. *)
Theorem minimize_is_negated_maximize (N : nat) (names : list string)
    (objective : list num) (constraints : list Constraint.t) :
  SimplexResult.status
    (solveSimplex (LPModel.mk MINIMIZE N names objective constraints))
  = SimplexResult.status
      (solveSimplex
         (LPModel.mk MAXIMIZE N names (nneg <$> objective) constraints)) ∧
  SimplexResult.steps
    (solveSimplex (LPModel.mk MINIMIZE N names objective constraints))
  = SimplexResult.steps
      (solveSimplex
         (LPModel.mk MAXIMIZE N names (nneg <$> objective) constraints)) ∧
  SimplexResult.variableValues
    (solveSimplex (LPModel.mk MINIMIZE N names objective constraints))
  = SimplexResult.variableValues
      (solveSimplex
         (LPModel.mk MAXIMIZE N names (nneg <$> objective) constraints)) ∧
  SimplexResult.optimalValue
    (solveSimplex (LPModel.mk MINIMIZE N names objective constraints))
  = nneg <$> SimplexResult.optimalValue
      (solveSimplex
         (LPModel.mk MAXIMIZE N names (nneg <$> objective) constraints)).
Proof.
  assert (Ht : initial_tableau
                 (LPModel.mk MINIMIZE N names objective constraints)
               = initial_tableau
                   (LPModel.mk MAXIMIZE N names (nneg <$> objective)
                               constraints)).
  { apply initial_tableau_ext; [done|done|].
    intros i j _ _. unfold initial_cell.
    cbn [LPModel.numVariables LPModel.constraints LPModel.type
         LPModel.objectiveCoefficients isMinimize].
    destruct (constraints !! i); [done|].
    case_decide; [|done]. by rewrite arr_get_fmap_nneg, nneg_involutive. }
  unfold solveSimplex, initial_state. rewrite Ht.
  cbn [LPModel.numVariables LPModel.constraints LPModel.type isMinimize].
  destruct (while_loop N (length constraints) maxIterations _)
    as [s|res] eqn:Hloop.
  - done.
  - apply while_loop_inr in Hloop as [s ->]. done.
Qed.

(** A minimization: [min -x1 - x2] subject to [x1 + x2 <= 4] is [-4]. *)
Example minimize_example :
  SimplexResult.optimalValue
    (solveSimplex
       (LPModel.mk MINIMIZE 2 ["x1"; "x2"]%string [Fin (-1); Fin (-1)]
          [Constraint.mk "a" [Fin 1; Fin 1] LESS_THAN_EQ (Fin 4)]))
  = Some (Fin (-4)) ∧
  SimplexResult.optimalValue
    (solveSimplex
       (LPModel.mk MAXIMIZE 2 ["x1"; "x2"]%string [Fin 1; Fin 1]
          [Constraint.mk "a" [Fin 1; Fin 1] LESS_THAN_EQ (Fin 4)]))
  = Some (Fin 4).
Proof. split; reflexivity. Qed.

(** ** C10: what the solver does not read *)

(** C10.  Two models that differ only in the relation [type] of their
    constraints, in the constraint [id]s or in the [variableNames] get the
    same result from [solveSimplex]: same status, optimal value, variable
    values and trace. *)
Theorem result_ignores_relation_id_and_names (model1 model2 : LPModel.t) :
  numeric_part model1 = numeric_part model2 →
  solveSimplex model1 = solveSimplex model2.
Proof.
  unfold numeric_part. intros H.
  injection H as Htype HN Hobj Hcs.
  assert (Hm : length (LPModel.constraints model1)
               = length (LPModel.constraints model2)).
  { apply (f_equal length) in Hcs. by rewrite !length_fmap in Hcs. }
  apply solveSimplex_ext; [done|done|by rewrite Htype|].
  apply initial_tableau_ext; [done|done|].
  intros i j _ _. unfold initial_cell. rewrite <- HN, <- Hm, Hobj, Htype.
  apply (f_equal (λ l, l !! i)) in Hcs. rewrite !list_lookup_fmap in Hcs.
  destruct (LPModel.constraints model1 !! i) as [c1|],
           (LPModel.constraints model2 !! i) as [c2|]; try done.
  cbn in Hcs. injection Hcs as -> ->. done.
Qed.

Lemma result_ignores_relation_id_and_names_witness :
  solveSimplex example_model = solveSimplex relabelled_model.
Proof.
  apply (result_ignores_relation_id_and_names example_model relabelled_model).
  reflexivity.
Defined.

(** ** C3: malformed models *)

Lemma length_reshape_seq (N : nat) (l : list num) :
  length (reshape_seq N l) = N.
Proof.
  unfold reshape_seq. rewrite length_app, length_take, length_replicate. lia.
Qed.

Lemma arr_get_reshape_seq (N : nat) (l : list num) (j : nat) :
  j < N → arr_get (reshape_seq N l) j = arr_get l j.
Proof.
  intros Hj. unfold arr_get, reshape_seq.
  destruct (decide (j < length l)) as [Hlt|Hge].
  - rewrite lookup_app_l by (rewrite length_take; lia).
    by rewrite lookup_take_lt.
  - rewrite lookup_app_r by (rewrite length_take; lia).
    rewrite length_take, lookup_replicate_2 by lia.
    by rewrite lookup_ge_None_2 by lia.
Qed.

(** C3 fails.  [solveSimplex] has no validation step and raises nothing:
    on each of the three malformed models it builds a tableau -- dropping
    the third coefficient of [long_model], reading the missing coefficient
    of [short_model] as [undefined] -- and returns status OPTIMAL. *)
Lemma malformed_models_are_solved :
  malformed long_model = true ∧
  (initial_tableau long_model).1
    = [[Fin 1; Fin 1; Fin 1; Fin 4]; [Fin (-1); Fin (-1); Fin 0; Fin 0]] ∧
  SimplexResult.status (solveSimplex long_model) = OPTIMAL ∧
  SimplexResult.optimalValue (solveSimplex long_model) = Some (Fin 4) ∧
  SimplexResult.variableValues (solveSimplex long_model) = [Fin 4; Fin 0] ∧
  malformed short_model = true ∧
  (initial_tableau short_model).1
    = [[Fin 1; NaN; Fin 1; Fin 4]; [Fin (-1); Fin (-1); Fin 0; Fin 0]] ∧
  SimplexResult.status (solveSimplex short_model) = OPTIMAL ∧
  SimplexResult.optimalValue (solveSimplex short_model) = Some (Fin 4) ∧
  malformed empty_model = true ∧
  (initial_tableau empty_model).1 = [[Fin 1; Fin 4]; [Fin 0; Fin 0]] ∧
  SimplexResult.status (solveSimplex empty_model) = OPTIMAL ∧
  SimplexResult.optimalValue (solveSimplex empty_model) = Some (Fin 0) ∧
  SimplexResult.variableValues (solveSimplex empty_model) = [].
Proof. repeat split; reflexivity. Qed.

Lemma solveSimplex_status (model : LPModel.t) :
  SimplexResult.status (solveSimplex model) = OPTIMAL ∨
  SimplexResult.status (solveSimplex model) = UNBOUNDED.
Proof.
  unfold solveSimplex.
  destruct (while_loop _ _ maxIterations (initial_state model))
    as [s|res] eqn:Hloop.
  - by left.
  - right. apply while_loop_inr in Hloop as [s ->]. done.
Qed.

(** C3, amended.  [solveSimplex] does not validate the shape of the model
    and never fails: for every model, malformed or not, it returns a
    result with status OPTIMAL or UNBOUNDED.  It reads exactly the first
    [numVariables] entries of every coefficient sequence: its result is
    the result on the reshaped model, in which every sequence has
    [numVariables] entries, the longer ones cut and the shorter ones
    filled with [undefined]. *)
Theorem solveSimplex_reads_first_numVariables (model : LPModel.t) :
  solveSimplex model = solveSimplex (reshape model) ∧
  length (LPModel.objectiveCoefficients (reshape model))
    = LPModel.numVariables model ∧
  Forall (λ c, length (Constraint.coefficients c)
               = LPModel.numVariables model)
         (LPModel.constraints (reshape model)) ∧
  (SimplexResult.status (solveSimplex model) = OPTIMAL ∨
   SimplexResult.status (solveSimplex model) = UNBOUNDED).
Proof.
  split; [|split; [|split]].
  - apply solveSimplex_ext.
    + done.
    + unfold reshape. cbn [LPModel.constraints]. by rewrite length_fmap.
    + done.
    + apply initial_tableau_ext.
      * done.
      * unfold reshape. cbn [LPModel.constraints]. by rewrite length_fmap.
      * intros i j _ _. unfold initial_cell, reshape.
        cbn [LPModel.numVariables LPModel.constraints LPModel.type
             LPModel.objectiveCoefficients].
        rewrite list_lookup_fmap, length_fmap.
        destruct (LPModel.constraints model !! i) as [c|];
          cbn [fmap option_fmap option_map Constraint.coefficients
               Constraint.rhs].
        -- case_decide; [|done]. by rewrite arr_get_reshape_seq.
        -- case_decide; [|done]. by rewrite arr_get_reshape_seq.
  - apply length_reshape_seq.
  - unfold reshape. cbn [LPModel.constraints]. apply Forall_fmap.
    apply Forall_forall. intros c _. apply length_reshape_seq.
  - apply solveSimplex_status.
Qed.

(** Malformed models are where the hypothesis [well_formed] of C5 to C8
    is needed.  On [ragged_model] the missing coefficient is read as
    [undefined], the first pivot turns row 1 into NaN, and the column of
    its basic variable is no unit vector any more.  On [hollow_model] the
    objective row starts with a NaN entry, which is neither negative nor
    [>= 0]: the optimality test passes at once. *)
Example malformed_models_escape_the_invariant :
  malformed ragged_model = true ∧
  after_pivots 1 2 1 (initial_state ragged_model)
    = Some (mkLoop [[Fin 1; Fin 1; Fin 0; Fin 1];
                    [NaN; NaN; NaN; NaN];
                    [Fin 0; Fin 1; Fin 0; Fin 1]]
                   [0; 2]
                   [pivot_step 1 (initial_state ragged_model) 0 0]) ∧
  malformed hollow_model = true ∧
  (initial_tableau hollow_model).1 = [[Fin 1; Fin 1; Fin 1]; [NaN; Fin 0; Fin 0]] ∧
  nle (Fin 0) (get (initial_tableau hollow_model).1 1 0) = false ∧
  find_pivot_col 1 1 (initial_tableau hollow_model).1 = None.
Proof. repeat split; reflexivity. Qed.

(** ** C2: the iteration ceiling *)

(** The loop left by the ceiling: after [maxIterations] pivots the code
    below the loop runs as it does after a [break], and the status is
    OPTIMAL whatever the objective row holds. *)
Lemma ceiling_falls_through (model : LPModel.t) (s : LoopState) :
  reached model maxIterations s →
  solveSimplex model =
    extract_solution (LPModel.numVariables model)
                     (length (LPModel.constraints model))
                     (isMinimize (LPModel.type model)) s.
Proof.
  intros Hs. rewrite (solveSimplex_after model maxIterations s Hs) by lia.
  by rewrite Nat.sub_diag.
Qed.

(** C2 fails on the code.  On the Klee-Minty model the loop stops at the
    ceiling of 100 iterations: the trace has 100 steps, none of them
    marked optimal, the objective row of the tableau the loop is left with
    still has a negative entry (column 0 would enter next), and yet
    [solveSimplex] returns status OPTIMAL with the value [990090000000] of
    that tableau.  With a ceiling of 128 the same loop leaves through the
    optimality test after 127 pivots, at the value [10^12]. *)
Theorem ceiling_is_reported_as_optimal :
  well_formed klee_minty = true ∧
  reached klee_minty maxIterations klee_minty_state ∧
  find_pivot_col 7 7 (tableau klee_minty_state) = Some 0 ∧
  nlt (get (tableau klee_minty_state) 7 0) (Fin 0) = true ∧
  SimplexResult.status (solveSimplex klee_minty) = OPTIMAL ∧
  SimplexResult.optimalValue (solveSimplex klee_minty)
    = Some (Fin 990090000000) ∧
  length (SimplexResult.steps (solveSimplex klee_minty)) = maxIterations ∧
  forallb (λ st, negb (SimplexStep.isOptimal st))
          (SimplexResult.steps (solveSimplex klee_minty)) = true ∧
  (∃ s, while_loop 7 7 128 (initial_state klee_minty) = inl s ∧
        length (steps s) = 128 ∧
        SimplexStep.isOptimal <$> last (steps s) = Some true ∧
        get (tableau s) 7 14 = Fin 1000000000000).
Proof.
  split; [vm_compute; reflexivity|].
  split; [vm_compute; reflexivity|].
  split; [vm_compute; reflexivity|].
  split; [vm_compute; reflexivity|].
  split; [vm_compute; reflexivity|].
  split; [vm_compute; reflexivity|].
  split; [vm_compute; reflexivity|].
  split; [vm_compute; reflexivity|].
  eexists. split; [vm_compute; reflexivity|].
  split; [vm_compute; reflexivity|].
  split; vm_compute; reflexivity.
Qed.

(** ** The trace of every model *)

Lemma initial_shape (model : LPModel.t) :
  Shape (LPModel.numVariables model) (length (LPModel.constraints model))
        (initial_state model).
Proof.
  rewrite initial_state_eq.
  destruct (initial_tableau_spec model) as (Hr & Hb & _).
  split; cbn [tableau basicVariables]; [done| |].
  - by rewrite Hb, length_fmap, length_seq.
  - rewrite Hb. apply Forall_fmap, Forall_forall. intros i Hi.
    apply elem_of_seq in Hi. simpl. lia.
Qed.

Lemma pivot_shape (N m : nat) (s : LoopState) (pr pc : nat) :
  Shape N m s →
  find_pivot_col N m (tableau s) = Some pc →
  find_pivot_row N m (tableau s) pc = Some pr →
  Shape N m (mkLoop (pivot N m pr pc (tableau s))
                    (<[pr := pc]> (basicVariables s))
                    (steps s ++ [pivot_step N s pr pc])) ∧
  step_ok N m (pivot_step N s pr pc).
Proof.
  intros [Hr Hlen Hb] Hpc Hpr.
  pose proof (find_pivot_col_found N m (tableau s)) as Hcol.
  rewrite Hpc in Hcol. destruct Hcol as (HpcN & Hneg & _).
  apply find_pivot_row_some in Hpr as (Hprm & Hpos & _).
  destruct (pivot_spec N m pr pc (tableau s)) as [Hr' _]; [done|lia|].
  split.
  - split; cbn [tableau basicVariables]; [done| |].
    + by rewrite length_insert.
    + apply Forall_insert; done.
  - unfold step_ok, pivot_step. cbn. done.
Qed.

Lemma after_pivots_shape (N m k : nat) (s s' : LoopState) :
  Shape N m s → Forall (step_ok N m) (steps s) →
  after_pivots N m k s = Some s' →
  Shape N m s' ∧ Forall (step_ok N m) (steps s').
Proof.
  revert s. induction k as [|k IH]; intros s HS Hsteps H; simpl in H.
  - by injection H as <-.
  - destruct (iteration N m s) as [| |s1] eqn:Hit; try done.
    apply iteration_next in Hit as (pr & pc & Hpc & Hpr & ->).
    destruct (pivot_shape N m s pr pc HS Hpc Hpr) as [HS' Hok].
    eapply IH; [done| |done]. cbn [steps].
    apply Forall_app. split; [done|]. by constructor.
Qed.

Lemma reached_shape (model : LPModel.t) (k : nat) (s : LoopState) :
  reached model k s →
  Shape (LPModel.numVariables model) (length (LPModel.constraints model)) s ∧
  Forall (step_ok (LPModel.numVariables model)
                  (length (LPModel.constraints model))) (steps s).
Proof.
  intros H. eapply after_pivots_shape; [apply initial_shape| |done].
  rewrite initial_state_eq. cbn [steps]. constructor.
Qed.

(** How [solveSimplex] ends, in terms of the state the loop reached. *)
Lemma solveSimplex_cases (model : LPModel.t) :
  (∃ k s, k < maxIterations ∧ reached model k s ∧
     find_pivot_col (LPModel.numVariables model)
                    (length (LPModel.constraints model)) (tableau s) = None ∧
     solveSimplex model =
       extract_solution (LPModel.numVariables model)
         (length (LPModel.constraints model))
         (isMinimize (LPModel.type model))
         (mkLoop (tableau s) (basicVariables s)
                 (steps s ++ [optimal_step s]))) ∨
  (∃ k s pc, k < maxIterations ∧ reached model k s ∧
     find_pivot_col (LPModel.numVariables model)
                    (length (LPModel.constraints model)) (tableau s)
       = Some pc ∧
     find_pivot_row (LPModel.numVariables model)
                    (length (LPModel.constraints model)) (tableau s) pc
       = None ∧
     solveSimplex model = unbounded_result s) ∨
  (∃ s, reached model maxIterations s ∧
     solveSimplex model =
       extract_solution (LPModel.numVariables model)
         (length (LPModel.constraints model))
         (isMinimize (LPModel.type model)) s).
Proof.
  unfold solveSimplex, reached.
  set (N := LPModel.numVariables model).
  set (m := length (LPModel.constraints model)).
  pose proof (while_loop_exit N m maxIterations (initial_state model)) as Hexit.
  remember (while_loop N m maxIterations (initial_state model)) as out
    eqn:Hout.
  clear Hout.
  destruct Hexit as [k s s' Hk Hs Hbr|k s res Hk Hs Hret|s Hs].
  - left. apply iteration_break in Hbr as [Hnone ->].
    exists k, s. done.
  - right. left. apply iteration_return in Hret as (pc & Hpc & Hpr & ->).
    exists k, s, pc. done.
  - right. right. exists s. done.
Qed.

(** Every step of the trace of [solveSimplex], on every model, is well
    made: snapshots of the full shape, pivot coordinates inside the
    tableau, a strictly positive pivot element (no division by zero), a
    negative objective entry in the entering column. *)
Theorem trace_steps_are_well_made (model : LPModel.t) :
  Forall (step_ok (LPModel.numVariables model)
                  (length (LPModel.constraints model)))
         (SimplexResult.steps (solveSimplex model)).
Proof.
  destruct (solveSimplex_cases model)
    as [(k & s & Hk & Hs & Hnone & ->)|[(k & s & pc & Hk & Hs & _ & _ & ->)
       |(s & Hs & ->)]];
    destruct (reached_shape model k s Hs) as [[Hr Hlen Hb] Hsteps]
    || destruct (reached_shape model maxIterations s Hs)
         as [[Hr Hlen Hb] Hsteps];
    cbn [extract_solution unbounded_result SimplexResult.steps steps].
  - apply Forall_app. split; [done|]. constructor; [|done].
    unfold step_ok, optimal_step. cbn. done.
  - done.
  - done.
Qed.

(** The trace of [solveSimplex] never has more than [maxIterations]
    steps.  On UNBOUNDED it has fewer and no step is marked optimal.  On
    OPTIMAL either its last step, and only that one, is marked optimal, or
    the loop ran into the ceiling: the trace has exactly [maxIterations]
    steps and none is marked optimal. *)
Theorem trace_length_and_optimal_flag (model : LPModel.t) :
  length (SimplexResult.steps (solveSimplex model)) ≤ maxIterations ∧
  (SimplexResult.status (solveSimplex model) = UNBOUNDED →
     length (SimplexResult.steps (solveSimplex model)) < maxIterations ∧
     Forall (λ st, SimplexStep.isOptimal st = false)
            (SimplexResult.steps (solveSimplex model))) ∧
  (SimplexResult.status (solveSimplex model) = OPTIMAL →
     (∃ pivots final,
        SimplexResult.steps (solveSimplex model) = pivots ++ [final] ∧
        Forall (λ st, SimplexStep.isOptimal st = false) pivots ∧
        SimplexStep.isOptimal final = true ∧
        SimplexStep.pivotRow final = None ∧
        SimplexStep.pivotCol final = None) ∨
     (length (SimplexResult.steps (solveSimplex model)) = maxIterations ∧
      Forall (λ st, SimplexStep.isOptimal st = false)
             (SimplexResult.steps (solveSimplex model)))).
Proof.
  destruct (solveSimplex_cases model)
    as [(k & s & Hk & Hs & Hnone & ->)|[(k & s & pc & Hk & Hs & _ & _ & ->)
       |(s & Hs & ->)]];
    cbn [extract_solution unbounded_result SimplexResult.steps
         SimplexResult.status steps];
    destruct (reached_steps model _ s Hs) as [Hlen Hflags].
  - split; [rewrite length_app; simpl; lia|]. split; [done|].
    intros _. left. exists (steps s), (optimal_step s). done.
  - split; [lia|]. split; [|done]. intros _. split; [lia|done].
  - split; [lia|]. split; [done|]. intros _. right. done.
Qed.

Lemma replays_app (N m : nat) (a b c : Tableau * list nat)
    (l1 l2 : list SimplexStep.t) :
  Forall (λ st, SimplexStep.pivotRow st ≠ None) l1 →
  Replays N m a l1 b → Replays N m b l2 c → Replays N m a (l1 ++ l2) c.
Proof.
  intros Hall H1 H2. induction H1 as [cur|cur st Ht Hb Hpr Hpc|
    cur st pr pc rest final Ht Hb Hpr Hpc Hrest IH].
  - done.
  - apply Forall_cons in Hall as [Hne _]. done.
  - apply Forall_cons in Hall as [_ Hall]. simpl.
    eapply replays_pivot; [done|done|done|done|]. by apply IH.
Qed.

Lemma after_pivots_replays (N m k : nat) (s s' : LoopState) :
  after_pivots N m k s = Some s' →
  ∃ new, steps s' = steps s ++ new ∧
         Forall (λ st, SimplexStep.pivotRow st ≠ None) new ∧
         Replays N m (tableau s, basicVariables s) new
                 (tableau s', basicVariables s').
Proof.
  revert s. induction k as [|k IH]; intros s H; simpl in H.
  - injection H as <-. exists []. rewrite app_nil_r.
    split; [done|]. split; [done|]. constructor.
  - destruct (iteration N m s) as [| |s1] eqn:Hit; try done.
    apply iteration_next in Hit as (pr & pc & _ & _ & ->).
    apply IH in H as (new & Hnew & Hall & Hrep).
    cbn [steps tableau basicVariables] in *.
    exists (pivot_step N s pr pc :: new). split.
    { by rewrite Hnew, <- app_assoc. }
    split; [by constructor|].
    by eapply replays_pivot.
Qed.

(** The trace of [solveSimplex] is coherent, on every model: replayed
    from the initial tableau and basis, its pivots lead, snapshot by
    snapshot, to the tableau and basis the loop was left with, and on
    OPTIMAL the solution is the one extracted from that tableau. *)
Theorem trace_replays_from_initial_tableau (model : LPModel.t) :
  ∃ t b,
    Replays (LPModel.numVariables model) (length (LPModel.constraints model))
            (initial_tableau model)
            (SimplexResult.steps (solveSimplex model)) (t, b) ∧
    (SimplexResult.status (solveSimplex model) = OPTIMAL →
       SimplexResult.variableValues (solveSimplex model)
         = extract_values (LPModel.numVariables model)
                          (length (LPModel.constraints model)) t b ∧
       SimplexResult.optimalValue (solveSimplex model)
         = Some (let z := get t (length (LPModel.constraints model))
                              (LPModel.numVariables model
                               + length (LPModel.constraints model)) in
                 if isMinimize (LPModel.type model) then nneg z else z)).
Proof.
  set (N := LPModel.numVariables model).
  set (m := length (LPModel.constraints model)).
  assert (Hfinal : ∀ s,
    SimplexResult.optimalValue
      (extract_solution N m (isMinimize (LPModel.type model)) s)
    = Some (let z := get (tableau s) m (N + m) in
            if isMinimize (LPModel.type model) then nneg z else z)).
  { intros s. cbn [extract_solution SimplexResult.optimalValue].
    unfold totalRows, totalCols.
    replace (m + 1 - 1) with m by lia.
    replace (N + m + 1 - 1) with (N + m) by lia.
    by destruct (isMinimize (LPModel.type model)). }
  assert (Hinit : ∀ k s, reached model k s →
    ∃ new, steps s = new ∧
           Forall (λ st, SimplexStep.pivotRow st ≠ None) new ∧
           Replays N m (initial_tableau model) new
                   (tableau s, basicVariables s)).
  { intros k s Hs. apply after_pivots_replays in Hs as (new & Hnew & Ha & Hr).
    rewrite initial_state_eq in Hnew, Hr.
    cbn [steps tableau basicVariables] in Hnew, Hr.
    exists new. rewrite <- surjective_pairing in Hr. done. }
  destruct (solveSimplex_cases model)
    as [(k & s & Hk & Hs & Hnone & ->)|[(k & s & pc & Hk & Hs & _ & _ & ->)
       |(s & Hs & ->)]];
    destruct (Hinit _ s Hs) as (new & Hnew & Hall & Hrep);
    exists (tableau s), (basicVariables s).
  - split.
    + cbn [extract_solution SimplexResult.steps steps]. rewrite Hnew.
      eapply replays_app; [done|done|]. by apply replays_terminal.
    + intros _. split; [done|]. by rewrite Hfinal.
  - cbn [unbounded_result SimplexResult.steps SimplexResult.status].
    split; [by rewrite Hnew|]. done.
  - split.
    + cbn [extract_solution SimplexResult.steps]. by rewrite Hnew.
    + intros _. split; [done|]. by rewrite Hfinal.
Qed.

(** ** Models solved in the first iteration *)

Lemma nlt_nneg_zero (a : num) :
  nlt (nneg a) (Fin 0) = ngt a (Fin 0).
Proof.
  destruct a as [q|]; [|done]. unfold ngt.
  destruct (nlt (Fin 0) (Fin q)) eqn:E.
  - apply nlt_Fin in E. apply nlt_Fin.
    apply (Qplus_lt_l _ _ q). ring_simplify. done.
  - apply nlt_Fin_false in E. apply nlt_Fin_false.
    apply (Qplus_le_l _ _ q). ring_simplify. done.
Qed.

Lemma objective_cell (model : LPModel.t) (j : nat) :
  j < LPModel.numVariables model + length (LPModel.constraints model) →
  get (initial_tableau model).1 (length (LPModel.constraints model)) j
    = if decide (j < LPModel.numVariables model)
      then nneg (maximized_coefficient model j) else Fin 0.
Proof.
  intros Hj. destruct (initial_tableau_spec model) as (_ & _ & Hg).
  rewrite Hg by lia. unfold initial_cell, maximized_coefficient.
  rewrite (lookup_ge_None_2 (LPModel.constraints model)) by lia.
  case_decide; [|done].
  destruct (isMinimize (LPModel.type model)); [|done].
  by rewrite nneg_involutive.
Qed.

Lemma extract_values_slack_basis (N m : nat) (t : Tableau) (b : list nat)
    (n : nat) :
  Forall (λ c, N ≤ c) b →
  foldl (λ variableValues i,
           match b !! i with
           | Some basicVarIndex =>
               if decide (basicVarIndex < N)
               then arr_set variableValues basicVarIndex
                            (get t i (totalCols N m - 1))
               else variableValues
           | None => variableValues
           end)
        (replicate N (Fin 0)) (seq 0 n)
  = replicate N (Fin 0).
Proof.
  intros Hb. induction n as [|n IH]; [done|].
  rewrite seq_S, foldl_snoc, Nat.add_0_l, IH.
  destruct (b !! n) as [c|] eqn:Hc; [|done].
  rewrite Forall_lookup in Hb. specialize (Hb n c Hc).
  rewrite decide_False by lia. done.
Qed.

(** When no objective coefficient lets the objective grow (none is
    positive for MAXIMIZE, none negative for MINIMIZE), [solveSimplex]
    stops in its first iteration, on every model: status OPTIMAL, optimal
    value 0, every variable 0, and a trace of one terminal step showing
    the initial tableau. *)
Theorem nothing_to_improve_is_optimal_at_once (model : LPModel.t) :
  (∀ j, j < LPModel.numVariables model →
        ngt (maximized_coefficient model j) (Fin 0) = false) →
  solveSimplex model =
    SimplexResult.mk
      (Some (if isMinimize (LPModel.type model) then nneg (Fin 0) else Fin 0))
      (replicate (LPModel.numVariables model) (Fin 0))
      OPTIMAL
      [SimplexStep.mk (initial_tableau model).1 None None
                      (initial_tableau model).2 optimal_description true].
Proof.
  intros Hno. unfold solveSimplex. rewrite initial_state_eq.
  set (N := LPModel.numVariables model) in *.
  set (m := length (LPModel.constraints model)) in *.
  assert (Hnone : find_pivot_col N m (initial_tableau model).1 = None).
  { pose proof (find_pivot_col_found N m (initial_tableau model).1) as H.
    destruct (find_pivot_col N m (initial_tableau model).1) as [pc|]; [|done].
    destruct H as (Hpc & Hneg & _). exfalso.
    rewrite objective_cell in Hneg by done. fold N in Hneg.
    destruct (decide (pc < N)) as [HpcN|HpcN]; [|done].
    rewrite nlt_nneg_zero, Hno in Hneg; done. }
  unfold maxIterations. cbn [while_loop]. unfold iteration.
  cbn [tableau basicVariables steps]. rewrite Hnone.
  unfold extract_solution, optimal_step. cbn [tableau basicVariables steps].
  destruct (initial_tableau_spec model) as (_ & Hb & Hg). fold N m in Hb, Hg.
  f_equal.
  - unfold totalRows, totalCols.
    replace (m + 1 - 1) with m by lia.
    replace (N + m + 1 - 1) with (N + m) by lia.
    rewrite Hg by lia. unfold initial_cell. fold N m.
    rewrite (lookup_ge_None_2 (LPModel.constraints model)) by (fold m; lia).
    rewrite decide_False by lia. done.
  - unfold extract_values. apply extract_values_slack_basis.
    rewrite Hb. apply Forall_fmap, Forall_forall. intros i _. simpl. lia.
Qed.

Lemma nothing_to_improve_is_optimal_at_once_witness :
  solveSimplex
    (LPModel.mk MINIMIZE 2 ["x1"; "x2"]%string [Fin 3; Fin 0]
       [Constraint.mk "a" [Fin 1; Fin 1] LESS_THAN_EQ (Fin 4)])
  = SimplexResult.mk (Some (nneg (Fin 0))) [Fin 0; Fin 0] OPTIMAL
      [SimplexStep.mk [[Fin 1; Fin 1; Fin 1; Fin 4]; [Fin 3; Fin 0; Fin 0; Fin 0]]
                      None None [2] optimal_description true].
Proof.
  apply (nothing_to_improve_is_optimal_at_once
           (LPModel.mk MINIMIZE 2 ["x1"; "x2"]%string [Fin 3; Fin 0]
              [Constraint.mk "a" [Fin 1; Fin 1] LESS_THAN_EQ (Fin 4)])).
  intros j Hj. simpl in Hj.
  destruct j as [|[|j]]; [reflexivity|reflexivity|lia].
Defined.

(** Without constraints nothing bounds a variable: as soon as one
    objective coefficient lets the objective grow, [solveSimplex] returns
    UNBOUNDED with an empty trace. *)
Theorem no_constraints_is_unbounded (model : LPModel.t) (j : nat) :
  LPModel.constraints model = [] →
  j < LPModel.numVariables model →
  ngt (maximized_coefficient model j) (Fin 0) = true →
  solveSimplex model = SimplexResult.mk None [] UNBOUNDED [].
Proof.
  intros Hcs Hj Hpos. unfold solveSimplex. rewrite initial_state_eq.
  pose proof (objective_cell model) as Hcell. rewrite Hcs in *.
  cbn [length] in *.
  set (N := LPModel.numVariables model) in *.
  pose proof (find_pivot_col_found N 0 (initial_tableau model).1) as H.
  destruct (find_pivot_col N 0 (initial_tableau model).1) as [pc|] eqn:Hpc.
  - unfold maxIterations. cbn [while_loop]. unfold iteration.
    cbn [tableau basicVariables steps]. rewrite Hpc. done.
  - exfalso. specialize (H j). rewrite Hcell, decide_True in H by lia.
    rewrite nlt_nneg_zero, Hpos in H.
    assert (true = false) by (apply H; lia). done.
Qed.

Lemma no_constraints_is_unbounded_witness :
  solveSimplex (LPModel.mk MAXIMIZE 2 ["x1"; "x2"]%string [Fin 0; Fin 5] [])
  = SimplexResult.mk None [] UNBOUNDED [].
Proof.
  apply (no_constraints_is_unbounded
           (LPModel.mk MAXIMIZE 2 ["x1"; "x2"]%string [Fin 0; Fin 5] []) 1).
  - reflexivity.
  - simpl. lia.
  - reflexivity.
Defined.

(** ** Finite sums of rationals *)









(** ** The tableau as a system of equations *)





(** ** The linear program of a model *)






(** ** The basic solution of a tableau *)








(** ** Feasibility along the run *)








(** ** The returned point *)






(** ** Optimality *)










(** ** Unboundedness *)





(** ** The handlers of the form *)

Lemma or_zero_fin (a : num) : is_fin (App.or_zero a) = true.
Proof. destruct a as [q|]; [|done]. simpl. by destruct (Qeq_bool q 0). Qed.

Lemma length_resize (n : nat) (l : list num) : length (App.resize n l) = n.
Proof. unfold App.resize. by rewrite length_fmap, length_seq. Qed.

Lemma resize_fin (n : nat) (l : list num) :
  forallb is_fin (App.resize n l) = true.
Proof.
  apply forallb_forall. intros x Hx. apply list_elem_of_In in Hx.
  unfold App.resize in Hx. apply list_elem_of_fmap in Hx as (i & -> & _).
  apply or_zero_fin.
Qed.

Lemma arr_get_resize (n : nat) (l : list num) (i : nat) :
  i < n → arr_get (App.resize n l) i = App.or_zero (arr_get l i).
Proof.
  intros Hi. unfold App.resize. apply arr_get_lookup.
  by rewrite list_lookup_fmap, lookup_seq_lt.
Qed.

(** Changing the number of variables repairs any model.  Whatever the
    model and the step asked for, the new count lies between 1 and 10;
    the names, the objective and every constraint have exactly that many
    entries; no coefficient is NaN (a missing or falsy one is 0, the
    others are kept); the constraints keep their identifiers, relations
    and right-hand sides; and the result shown is cleared.  If the
    right-hand sides are numbers the new model is well-formed. *)
Theorem variable_count_change_repairs_the_model (delta : Z) (st : App.State) :
  1 ≤ LPModel.numVariables (App.model (App.handleVariableCountChange delta st))
    ≤ 10 ∧
  length (LPModel.variableNames
            (App.model (App.handleVariableCountChange delta st)))
    = LPModel.numVariables
        (App.model (App.handleVariableCountChange delta st)) ∧
  length (LPModel.objectiveCoefficients
            (App.model (App.handleVariableCountChange delta st)))
    = LPModel.numVariables
        (App.model (App.handleVariableCountChange delta st)) ∧
  (∀ i, i < LPModel.numVariables
              (App.model (App.handleVariableCountChange delta st)) →
     arr_get (LPModel.objectiveCoefficients
                (App.model (App.handleVariableCountChange delta st))) i
       = App.or_zero
           (arr_get (LPModel.objectiveCoefficients (App.model st)) i)) ∧
  Forall2 (λ c c',
             Constraint.id c' = Constraint.id c ∧
             Constraint.type c' = Constraint.type c ∧
             Constraint.rhs c' = Constraint.rhs c ∧
             length (Constraint.coefficients c')
               = LPModel.numVariables
                   (App.model (App.handleVariableCountChange delta st)) ∧
             forallb is_fin (Constraint.coefficients c') = true ∧
             ∀ i, i < LPModel.numVariables
                        (App.model (App.handleVariableCountChange delta st)) →
               arr_get (Constraint.coefficients c') i
                 = App.or_zero (arr_get (Constraint.coefficients c) i))
          (LPModel.constraints (App.model st))
          (LPModel.constraints
             (App.model (App.handleVariableCountChange delta st))) ∧
  App.result (App.handleVariableCountChange delta st) = None ∧
  (forallb (λ c, is_fin (Constraint.rhs c))
           (LPModel.constraints (App.model st)) = true →
   well_formed (App.model (App.handleVariableCountChange delta st)) = true).
Proof.
  unfold App.handleVariableCountChange.
  cbn [App.model App.result LPModel.numVariables LPModel.variableNames
       LPModel.objectiveCoefficients LPModel.constraints].
  set (n := Z.to_nat (Z.max 1 (Z.min 10
              (Z.of_nat (LPModel.numVariables (App.model st)) + delta)))).
  split; [unfold n; lia|].
  split; [by rewrite length_fmap, length_seq|].
  split; [apply length_resize|].
  split; [intros i Hi; by apply arr_get_resize|].
  split.
  { apply Forall2_fmap_r, Forall_Forall2_diag, Forall_forall.
    intros c _. cbn. split; [done|]. split; [done|]. split; [done|].
    split; [apply length_resize|]. split; [apply resize_fin|].
    intros i Hi. by apply arr_get_resize. }
  split; [done|].
  intros Hrhs. unfold well_formed.
  cbn [LPModel.numVariables LPModel.objectiveCoefficients LPModel.constraints].
  rewrite length_resize, Nat.eqb_refl, resize_fin. cbn [andb].
  apply forallb_forall. intros c' Hc'. apply list_elem_of_In in Hc'.
  apply list_elem_of_fmap in Hc' as (c & -> & Hc).
  unfold well_formed_constraint. cbn.
  rewrite length_resize, Nat.eqb_refl, resize_fin. cbn [andb].
  rewrite forallb_forall in Hrhs. apply Hrhs. by apply list_elem_of_In.
Qed.

Lemma variable_count_change_repairs_the_model_witness :
  well_formed
    (App.model (App.handleVariableCountChange 0
                  (App.mkState short_model None None))) = true.
Proof.
  apply (variable_count_change_repairs_the_model 0
           (App.mkState short_model None None)).
  reflexivity.
Defined.

Lemma model_eta (m : LPModel.t) :
  LPModel.mk (LPModel.type m) (LPModel.numVariables m)
             (LPModel.variableNames m) (LPModel.objectiveCoefficients m)
             (LPModel.constraints m) = m.
Proof. by destruct m. Qed.

Lemma filter_other_ids (id : string) (cs : list Constraint.t) :
  Forall (λ c, Constraint.id c ≠ id) cs →
  List.filter (λ c, negb (Constraint.id c =? id)%string) cs = cs.
Proof.
  induction cs as [|c cs IH]; intros H; [done|].
  apply Forall_cons in H as [Hc Hcs]. simpl.
  apply String.eqb_neq in Hc. rewrite Hc. simpl. by rewrite IH.
Qed.

(** [removeConstraint] removes every constraint that carries the
    identifier and nothing else: what remains is, in the same order, the
    constraints with another identifier; removing twice removes nothing
    more; an identifier no constraint carries leaves the model as it
    is. *)
Theorem remove_constraint_removes_by_id (id : string) (st : App.State) :
  LPModel.constraints (App.model (App.removeConstraint id st))
    = List.filter (λ c, negb (Constraint.id c =? id)%string)
                  (LPModel.constraints (App.model st)) ∧
  Forall (λ c, Constraint.id c ≠ id)
         (LPModel.constraints (App.model (App.removeConstraint id st))) ∧
  (∀ c, c ∈ LPModel.constraints (App.model st) → Constraint.id c ≠ id →
        c ∈ LPModel.constraints (App.model (App.removeConstraint id st))) ∧
  App.model (App.removeConstraint id (App.removeConstraint id st))
    = App.model (App.removeConstraint id st) ∧
  (Forall (λ c, Constraint.id c ≠ id) (LPModel.constraints (App.model st)) →
   App.model (App.removeConstraint id st) = App.model st).
Proof.
  unfold App.removeConstraint. cbn [App.model LPModel.constraints
    LPModel.type LPModel.numVariables LPModel.variableNames
    LPModel.objectiveCoefficients].
  assert (Hall : Forall (λ c, Constraint.id c ≠ id)
            (List.filter (λ c, negb (Constraint.id c =? id)%string)
                         (LPModel.constraints (App.model st)))).
  { apply Forall_forall. intros c Hc. apply list_elem_of_In in Hc.
    apply filter_In in Hc as [_ Hc]. apply negb_true_iff in Hc.
    by apply String.eqb_neq. }
  split; [done|]. split; [done|]. split.
  { intros c Hc Hne. apply list_elem_of_In. apply filter_In.
    split; [by apply list_elem_of_In|].
    apply negb_true_iff. by apply String.eqb_neq. }
  split.
  { by rewrite filter_other_ids. }
  intros H. rewrite filter_other_ids by done. apply model_eta.
Qed.

Lemma remove_constraint_removes_by_id_witness :
  App.model (App.removeConstraint "c9" App.initial) = App.model App.initial.
Proof.
  apply (remove_constraint_removes_by_id "c9" App.initial).
  repeat constructor; discriminate.
Defined.

(** Adding a constraint and removing it again gives the model back,
    provided no constraint already carried the identifier made from the
    time stamp.  Two constraints added within the same millisecond share
    their identifier: removing one removes both. *)
Theorem add_then_remove_restores_the_model (now : Z) (st : App.State) :
  Forall (λ c, Constraint.id c ≠ ("c-" ++ show_Z now)%string)
         (LPModel.constraints (App.model st)) →
  App.model (App.removeConstraint ("c-" ++ show_Z now)%string
               (App.addConstraint now st))
    = App.model st ∧
  App.model (App.removeConstraint ("c-" ++ show_Z now)%string
               (App.addConstraint now (App.addConstraint now st)))
    = App.model st.
Proof.
  intros Hfresh. unfold App.removeConstraint, App.addConstraint.
  cbn [App.model LPModel.constraints LPModel.type LPModel.numVariables
       LPModel.variableNames LPModel.objectiveCoefficients].
  rewrite !List.filter_app. cbn [List.filter Constraint.id].
  rewrite String.eqb_refl. cbn [negb].
  rewrite filter_other_ids by done. rewrite !app_nil_r.
  split; apply model_eta.
Qed.

Lemma add_then_remove_restores_the_model_witness :
  App.model (App.removeConstraint ("c-" ++ show_Z 1700000000000)%string
               (App.addConstraint 1700000000000 App.initial))
    = App.model App.initial ∧
  App.model (App.removeConstraint ("c-" ++ show_Z 1700000000000)%string
               (App.addConstraint 1700000000000
                  (App.addConstraint 1700000000000 App.initial)))
    = App.model App.initial.
Proof.
  apply (add_then_remove_restores_the_model 1700000000000 App.initial).
  repeat constructor; by vm_compute.
Defined.

(** ** Models built through the form *)

Lemma forallb_Forall {A : Type} (f : A → bool) (l : list A) :
  forallb f l = true ↔ Forall (λ x, f x = true) l.
Proof.
  induction l as [|x l IH]; simpl; [by split; [constructor|]|].
  rewrite andb_true_iff, IH, Forall_cons. done.
Qed.

Lemma well_formed_intro (model : LPModel.t) :
  length (LPModel.objectiveCoefficients model) = LPModel.numVariables model →
  Forall (λ x, is_fin x = true) (LPModel.objectiveCoefficients model) →
  Forall (λ c, length (Constraint.coefficients c)
               = LPModel.numVariables model ∧
               Forall (λ x, is_fin x = true) (Constraint.coefficients c) ∧
               is_fin (Constraint.rhs c) = true)
         (LPModel.constraints model) →
  well_formed model = true.
Proof.
  intros Hlen Hobj Hcs. unfold well_formed.
  rewrite !andb_true_iff. split; [split|].
  - by apply Nat.eqb_eq.
  - by apply forallb_Forall.
  - apply forallb_Forall. eapply Forall_impl; [exact Hcs|].
    intros c (Hl & Hf & Hr). unfold well_formed_constraint.
    rewrite !andb_true_iff. split; [split|]; [by apply Nat.eqb_eq| |done].
    by apply forallb_Forall.
Qed.

Lemma well_formed_elim (model : LPModel.t) :
  well_formed model = true →
  length (LPModel.objectiveCoefficients model) = LPModel.numVariables model ∧
  Forall (λ x, is_fin x = true) (LPModel.objectiveCoefficients model) ∧
  Forall (λ c, length (Constraint.coefficients c)
               = LPModel.numVariables model ∧
               Forall (λ x, is_fin x = true) (Constraint.coefficients c) ∧
               is_fin (Constraint.rhs c) = true)
         (LPModel.constraints model).
Proof.
  unfold well_formed. rewrite !andb_true_iff. intros [[Hlen Hobj] Hcs].
  split; [by apply Nat.eqb_eq|]. split; [by apply forallb_Forall|].
  apply forallb_Forall in Hcs. eapply Forall_impl; [exact Hcs|].
  intros c Hc. unfold well_formed_constraint in Hc.
  rewrite !andb_true_iff in Hc. destruct Hc as [[Hl Hf] Hr].
  split; [by apply Nat.eqb_eq|]. split; [by apply forallb_Forall|done].
Qed.

Lemma arr_set_fin (l : list num) (i : nat) (x : num) :
  i < length l → Forall (λ x, is_fin x = true) l → is_fin x = true →
  length (arr_set l i x) = length l ∧
  Forall (λ x, is_fin x = true) (arr_set l i x).
Proof.
  intros Hi Hl Hx. rewrite arr_set_lt by done.
  split; [by rewrite length_insert|]. by apply Forall_insert.
Qed.

Lemma form_action_invariant (st : App.State) (a : App.Action) :
  form_invariant st → form_action st a = true →
  form_invariant (App.act st a).
Proof.
  intros (Hwf & Hnames & Hrange) Ha.
  apply well_formed_elim in Hwf as (Hlen & Hobj & Hcs).
  destruct a as [delta|now|id|id edit|index parsed|type| |parsed|text];
    cbn [App.act].
  - (* the variable count *)
    unfold App.handleVariableCountChange, form_invariant.
    cbn [App.model LPModel.numVariables LPModel.variableNames
         LPModel.objectiveCoefficients LPModel.constraints].
    split; [|split; [by rewrite length_fmap, length_seq|lia]].
    apply well_formed_intro;
      cbn [LPModel.numVariables LPModel.objectiveCoefficients
           LPModel.constraints].
    + apply length_resize.
    + apply forallb_Forall, resize_fin.
    + apply Forall_fmap. eapply Forall_impl; [exact Hcs|].
      intros c (_ & _ & Hr). cbn.
      split; [apply length_resize|].
      split; [apply forallb_Forall, resize_fin|done].
  - (* a new constraint *)
    unfold App.addConstraint, form_invariant.
    cbn [App.model LPModel.numVariables LPModel.variableNames
         LPModel.objectiveCoefficients LPModel.constraints].
    split; [|done].
    apply well_formed_intro;
      cbn [LPModel.numVariables LPModel.objectiveCoefficients
           LPModel.constraints]; [done|done|].
    apply Forall_app. split; [done|]. constructor; [|done]. cbn.
    split; [by rewrite length_replicate|].
    split; [by apply Forall_replicate|done].
  - (* a constraint removed *)
    unfold App.removeConstraint, form_invariant.
    cbn [App.model LPModel.numVariables LPModel.variableNames
         LPModel.objectiveCoefficients LPModel.constraints].
    split; [|done].
    apply well_formed_intro;
      cbn [LPModel.numVariables LPModel.objectiveCoefficients
           LPModel.constraints]; [done|done|].
    apply Forall_forall. intros c Hc. apply list_elem_of_In in Hc.
    apply filter_In in Hc as [Hc _]. apply list_elem_of_In in Hc.
    rewrite Forall_forall in Hcs. by apply Hcs.
  - (* a constraint edited *)
    unfold App.updateConstraint, form_invariant.
    cbn [App.model LPModel.numVariables LPModel.variableNames
         LPModel.objectiveCoefficients LPModel.constraints].
    split; [|done].
    apply well_formed_intro;
      cbn [LPModel.numVariables LPModel.objectiveCoefficients
           LPModel.constraints]; [done|done|].
    apply Forall_fmap. eapply Forall_impl; [exact Hcs|].
    intros c (Hl & Hf & Hr). cbn.
    destruct (negb (Constraint.id c =? id)%string); [done|].
    destruct edit as [index parsed|parsed|value|value|value];
      cbn in Ha |- *; try done.
    + apply Nat.ltb_lt in Ha.
      destruct (arr_set_fin (Constraint.coefficients c) index
                  (App.or_zero parsed)) as [Hl' Hf'];
        [lia|done|apply or_zero_fin|].
      split; [lia|done].
    + split; [done|]. split; [done|apply or_zero_fin].
  - (* an objective coefficient *)
    unfold App.updateObjective, form_invariant.
    cbn [App.model LPModel.numVariables LPModel.variableNames
         LPModel.objectiveCoefficients LPModel.constraints].
    split; [|done]. cbn in Ha. apply Nat.ltb_lt in Ha.
    destruct (arr_set_fin (LPModel.objectiveCoefficients (App.model st))
                index (App.or_zero parsed)) as [Hl' Hf'];
      [lia|done|apply or_zero_fin|].
    apply well_formed_intro;
      cbn [LPModel.numVariables LPModel.objectiveCoefficients
           LPModel.constraints]; [lia|done|done].
  - (* the direction *)
    unfold App.setDirection, form_invariant.
    cbn [App.model LPModel.numVariables LPModel.variableNames
         LPModel.objectiveCoefficients LPModel.constraints].
    split; [|done]. by apply well_formed_intro.
  - (* solve *)
    unfold App.handleSolve, form_invariant. cbn [App.model].
    split; [|done]. by apply well_formed_intro.
  - done.
  - (* explain *)
    unfold App.handleExplain, form_invariant.
    destruct (App.result st); cbn [App.model];
      (split; [|done]); by apply well_formed_intro.
Qed.

(** Whatever the user does in the form -- change the number of variables,
    add, remove or edit constraints, edit the objective, switch the
    direction, solve -- the model stays well-formed: between 1 and 10
    variables, as many names, objective coefficients and coefficients in
    every constraint as variables, and no NaN anywhere.  The models the
    form hands to [solveSimplex] are the models its guarantees are stated
    for. *)
Theorem form_models_are_well_formed (actions : list App.Action) :
  form_run App.initial actions = true →
  well_formed (App.model (foldl App.act App.initial actions)) = true ∧
  length (LPModel.variableNames
            (App.model (foldl App.act App.initial actions)))
    = LPModel.numVariables (App.model (foldl App.act App.initial actions)) ∧
  1 ≤ LPModel.numVariables (App.model (foldl App.act App.initial actions))
    ≤ 10.
Proof.
  assert (Hgen : ∀ st, form_invariant st → form_run st actions = true →
                       form_invariant (foldl App.act st actions)).
  { induction actions as [|a actions IH]; intros st Hinv Hrun; [done|].
    cbn [form_run] in Hrun. apply andb_true_iff in Hrun as [Ha Hrun].
    cbn [foldl]. apply IH; [|done]. by apply form_action_invariant. }
  intros Hrun. apply (Hgen App.initial); [|done].
  split; [reflexivity|]. split; [reflexivity|]. cbn. lia.
Qed.

Lemma form_models_are_well_formed_witness :
  well_formed
    (App.model
       (foldl App.act App.initial
          [App.VariableCount 1; App.AddConstraint 1700000000000;
           App.UpdateConstraint "c1" (App.SetCoefficient 2 NaN);
           App.UpdateObjective 2 (Fin 7); App.SetDirection MINIMIZE;
           App.RemoveConstraint "c2"; App.Solve])) = true.
Proof.
  apply (form_models_are_well_formed
           [App.VariableCount 1; App.AddConstraint 1700000000000;
            App.UpdateConstraint "c1" (App.SetCoefficient 2 NaN);
            App.UpdateObjective 2 (Fin 7); App.SetDirection MINIMIZE;
            App.RemoveConstraint "c2"; App.Solve]).
  reflexivity.
Defined.

(** ** The result shown *)

Lemma act_result_invariant (st : App.State) (a : App.Action) :
  result_invariant st → result_invariant (App.act st a).
Proof.
  intros Hinv.
  destruct a as [delta|now|id|id edit|index parsed|type| |parsed|text];
    cbn [App.act]; try (by left).
  - destruct Hinv as [Hnone|[type0 Hsome]]; [by left|].
    right. exists type0. cbn. done.
  - right. exists (LPModel.type (App.model st)). cbn.
    by destruct (App.model st).
  - destruct parsed; [by left|done].
  - unfold App.handleExplain.
    destruct (App.result st) as [r|] eqn:Hres; [|done].
    unfold result_invariant in *. cbn [App.result App.model].
    by rewrite Hres in Hinv.
Qed.

(** Every handler that edits the model clears the result, except the
    direction select.  So whatever the user does, the result on the
    screen, if there is one, is the result of [solveSimplex] on the model
    on the screen taken with some direction -- and not always with the
    direction shown: after Solve and a switch to Minimize the result of
    the maximization is still shown. *)
Theorem shown_result_is_of_shown_model_up_to_direction :
  (∀ actions : list App.Action,
     let st := foldl App.act App.initial actions in
     App.result st = None ∨
     ∃ type, App.result st
             = Some (solveSimplex (with_direction type (App.model st)))) ∧
  (let st := foldl App.act App.initial [App.Solve; App.SetDirection MINIMIZE] in
   App.result st ≠ Some (solveSimplex (App.model st)) ∧
   App.result st
     = Some (solveSimplex (with_direction MAXIMIZE (App.model st)))).
Proof.
  split.
  - intros actions.
    assert (Hgen : ∀ st, result_invariant st →
                         result_invariant (foldl App.act st actions)).
    { induction actions as [|a actions IH]; intros st Hinv; [done|].
      cbn [foldl]. by apply IH, act_result_invariant. }
    apply (Hgen App.initial). by left.
  - split; [|reflexivity].
    intros Heq. apply (f_equal (fmap SimplexResult.optimalValue)) in Heq.
    vm_compute in Heq. discriminate Heq.
Qed.

(** ** The solution card *)

Lemma length_extract_values (N m : nat) (t : Tableau) (b : list nat) :
  length (extract_values N m t b) = N.
Proof.
  unfold extract_values.
  assert (Hgen : ∀ (rows : list nat) (vv : list num),
            length vv = N →
            length (foldl (λ variableValues i,
                             match b !! i with
                             | Some basicVarIndex =>
                                 if decide (basicVarIndex < N)
                                 then arr_set variableValues basicVarIndex
                                        (get t i (totalCols N m - 1))
                                 else variableValues
                             | None => variableValues
                             end) vv rows) = N).
  { induction rows as [|i rows IH]; intros vv Hvv; [done|].
    cbn [foldl]. apply IH.
    destruct (b !! i) as [bv|]; [|done].
    destruct (decide (bv < N)); [|done].
    rewrite arr_set_lt by lia. by rewrite length_insert. }
  apply Hgen. by rewrite length_replicate.
Qed.

Lemma card_values_zip (names : list string) (values : list num) :
  ∀ (k : nat) (rest : list num),
    drop k values = rest → length names ≤ length rest →
    mapM (λ '(i, name), (λ v, (name, v)) <$> values !! i)
         (imap (λ i, pair (k + i)) names)
    = Some (zip names rest).
Proof.
  induction names as [|name names IH]; intros k rest Hdrop Hlen; [done|].
  destruct rest as [|v rest]; [simpl in Hlen; lia|].
  assert (Hv : values !! (k + 0) = Some v).
  { rewrite <- lookup_drop, Hdrop. done. }
  assert (Hrec : mapM (λ '(i, name), (λ v, (name, v)) <$> values !! i)
                      (imap (λ i, pair (S k + i)) names)
                 = Some (zip names rest)).
  { apply IH; [|simpl in Hlen; lia].
    replace (S k) with (k + 1) by lia. by rewrite <- drop_drop, Hdrop. }
  cbn [imap].
  rewrite (imap_ext _ (λ i, pair (S k + i))); last first.
  { intros i x _. cbn. f_equal. lia. }
  simpl. simpl in Hrec. rewrite Hv, Hrec. done.
Qed.

Lemma card_values_enough (names : list string) (r : SimplexResult.t) :
  length names ≤ length (SimplexResult.variableValues r) →
  App.card_values names r
  = Some (zip names (SimplexResult.variableValues r)).
Proof.
  intros Hlen. unfold App.card_values.
  rewrite (imap_ext _ (λ i, pair (0 + i))) by done.
  by apply card_values_zip.
Qed.

Lemma card_values_short (names : list string) (r : SimplexResult.t) :
  length (SimplexResult.variableValues r) < length names →
  App.card_values names r = None.
Proof.
  intros Hlen. unfold App.card_values. apply mapM_None, Exists_exists.
  destruct (lookup_lt_is_Some_2 names
              (length (SimplexResult.variableValues r)) Hlen) as [name Hname].
  exists (length (SimplexResult.variableValues r), name). split.
  - apply list_elem_of_lookup.
    exists (length (SimplexResult.variableValues r)).
    by rewrite list_lookup_imap, Hname.
  - by rewrite lookup_ge_None_2.
Qed.

(** The solution card is rendered whenever a result is there, and calls
    [toFixed] on [result.variableValues[i]] for every variable name.  For
    a model with as many names as variables, and at least one, the render
    goes through exactly when the status is OPTIMAL, pairing every name
    with its value; on an UNBOUNDED result, whose [variableValues] is
    empty, the first entry is [undefined] and the render throws. *)
Theorem solution_card_renders_iff_optimal (model : LPModel.t) :
  length (LPModel.variableNames model) = LPModel.numVariables model →
  1 ≤ LPModel.numVariables model →
  (SimplexResult.status (solveSimplex model) = OPTIMAL →
   App.card_values (LPModel.variableNames model) (solveSimplex model)
   = Some (zip (LPModel.variableNames model)
               (SimplexResult.variableValues (solveSimplex model)))
   ∧ length (SimplexResult.variableValues (solveSimplex model))
     = LPModel.numVariables model) ∧
  (SimplexResult.status (solveSimplex model) = UNBOUNDED →
   App.card_values (LPModel.variableNames model) (solveSimplex model)
   = None).
Proof.
  intros Hnames Hpos.
  assert (Hvalues :
    SimplexResult.status (solveSimplex model) = OPTIMAL ∧
    length (SimplexResult.variableValues (solveSimplex model))
      = LPModel.numVariables model ∨
    SimplexResult.status (solveSimplex model) = UNBOUNDED ∧
    SimplexResult.variableValues (solveSimplex model) = []).
  { unfold solveSimplex.
    destruct (while_loop _ _ maxIterations (initial_state model))
      as [s|res] eqn:Hloop.
    - left. split; [done|]. cbn. apply length_extract_values.
    - right. apply while_loop_inr in Hloop as [s ->]. done. }
  split; intros Hstatus.
  - destruct Hvalues as [[_ Hlen]|[Hu _]]; [|congruence].
    split; [|done]. apply card_values_enough. lia.
  - destruct Hvalues as [[Ho _]|[_ Hnil]]; [congruence|].
    apply card_values_short. rewrite Hnil. simpl. lia.
Qed.

Lemma solution_card_renders_iff_optimal_witness :
  App.card_values (LPModel.variableNames (App.model App.initial))
                  (solveSimplex (App.model App.initial))
  = Some (zip (LPModel.variableNames (App.model App.initial))
              (SimplexResult.variableValues
                 (solveSimplex (App.model App.initial)))) ∧
  App.card_values (LPModel.variableNames unbounded_model)
                  (solveSimplex unbounded_model) = None.
Proof.
  split.
  - apply (solution_card_renders_iff_optimal (App.model App.initial));
      [reflexivity|simpl; lia|reflexivity].
  - apply (solution_card_renders_iff_optimal unbounded_model);
      [reflexivity|simpl; lia|reflexivity].
Defined.

(** ** The ids of a parsed model *)

Lemma show_nat_inj (a b : nat) : show_nat a = show_nat b → a = b.
Proof.
  unfold show_nat. intros H.
  assert (Hnil : ∀ n, Nat.to_uint n ≠ Decimal.Nil).
  { intros n. rewrite <- (Unsigned.of_to n) at 1. rewrite Unsigned.to_of.
    apply DecimalFacts.unorm_nonnil. }
  apply Unsigned.to_uint_inj.
  apply (f_equal NilZero.uint_of_string) in H.
  rewrite !NilZero.usu in H by apply Hnil. congruence.
Qed.

Lemma filter_delete_by_id (l : list Constraint.t) :
  ∀ (k : nat) (c : Constraint.t),
    NoDup (Constraint.id <$> l) → l !! k = Some c →
    List.filter (λ c', negb (Constraint.id c' =? Constraint.id c)%string) l
    = delete k l.
Proof.
  induction l as [|c0 l IH]; intros k c Hnd Hk; [done|].
  rewrite fmap_cons in Hnd. apply NoDup_cons in Hnd as [Hnot Hnd].
  destruct k as [|k]; simpl in Hk.
  - injection Hk as ->. cbn [List.filter delete].
    rewrite String.eqb_refl. cbn [negb].
    apply filter_other_ids. apply Forall_forall. intros c' Hc' Heq.
    apply Hnot. rewrite <- Heq. by apply list_elem_of_fmap_2.
  - cbn [List.filter].
    destruct (Constraint.id c0 =? Constraint.id c)%string eqn:Heq.
    + apply String.eqb_eq in Heq. exfalso. apply Hnot. rewrite Heq.
      apply list_elem_of_fmap_2. by eapply list_elem_of_lookup_2.
    + cbn [negb]. simpl. f_equal. by apply IH.
Qed.

Lemma parsed_ids_nodup (rawData : Gemini.RawData) :
  NoDup (Constraint.id <$> LPModel.constraints (Gemini.model rawData)).
Proof.
  apply NoDup_alt. intros i j x Hi Hj.
  cbn [Gemini.model LPModel.constraints] in Hi, Hj.
  rewrite list_lookup_fmap, list_lookup_imap in Hi, Hj.
  destruct (Gemini.constraints rawData !! i) as [ci|]; [|done].
  destruct (Gemini.constraints rawData !! j) as [cj|]; [|done].
  cbn in Hi, Hj. rewrite <- Hj in Hi. injection Hi as Hi.
  by apply show_nat_inj.
Qed.

(** The constraints of a model that came from the AI parse carry the ids
    [c-0], [c-1], ... of their positions, which are pairwise distinct: in
    the form, the remove button of the constraint at position [k] removes
    that constraint and no other. *)
Theorem parsed_constraints_are_removed_one_by_one
    (rawData : Gemini.RawData) (st : App.State) (k : nat) :
  k < length (Gemini.constraints rawData) →
  let parsed := App.handleAiParse (Some (Gemini.model rawData)) st in
  NoDup (Constraint.id <$> LPModel.constraints (App.model parsed)) ∧
  (Constraint.id <$> LPModel.constraints (App.model parsed)) !! k
    = Some ("c-" ++ show_nat k)%string ∧
  LPModel.constraints
    (App.model (App.removeConstraint ("c-" ++ show_nat k) parsed))
  = delete k (LPModel.constraints (App.model parsed)).
Proof.
  intros Hk parsed.
  destruct (lookup_lt_is_Some_2 _ _ Hk) as [c Hc].
  assert (Hlookup :
    LPModel.constraints (Gemini.model rawData) !! k
    = Some (Constraint.mk ("c-" ++ show_nat k)%string
              (Gemini.coefficients c) (Gemini.type c) (Gemini.rhs c))).
  { cbn [Gemini.model LPModel.constraints].
    by rewrite list_lookup_imap, Hc. }
  split; [apply parsed_ids_nodup|].
  split.
  - subst parsed. cbn [App.handleAiParse App.model].
    by rewrite list_lookup_fmap, Hlookup.
  - subst parsed.
    cbn [App.handleAiParse App.removeConstraint App.model
         LPModel.constraints].
    apply (filter_delete_by_id _ k
             (Constraint.mk ("c-" ++ show_nat k)%string
                (Gemini.coefficients c) (Gemini.type c) (Gemini.rhs c)));
      [apply parsed_ids_nodup|done].
Qed.

Lemma parsed_constraints_are_removed_one_by_one_witness :
  LPModel.constraints
    (App.model
       (App.removeConstraint ("c-" ++ show_nat 1)
          (App.handleAiParse
             (Some (Gemini.model
                      (Gemini.mkRawData "MAX" ["Chairs"; "Tables"]%string
                         [Fin 3; Fin 5]
                         [Gemini.mkRawConstraint [Fin 1; Fin 0]
                            LESS_THAN_EQ (Fin 4);
                          Gemini.mkRawConstraint [Fin 0; Fin 2]
                            LESS_THAN_EQ (Fin 12);
                          Gemini.mkRawConstraint [Fin 3; Fin 2]
                            LESS_THAN_EQ (Fin 18)])))
             App.initial)))
  = [Constraint.mk "c-0" [Fin 1; Fin 0] LESS_THAN_EQ (Fin 4);
     Constraint.mk "c-2" [Fin 3; Fin 2] LESS_THAN_EQ (Fin 18)].
Proof.
  refine (eq_trans
    (proj2 (proj2 (parsed_constraints_are_removed_one_by_one
       (Gemini.mkRawData "MAX" ["Chairs"; "Tables"]%string [Fin 3; Fin 5]
          [Gemini.mkRawConstraint [Fin 1; Fin 0] LESS_THAN_EQ (Fin 4);
           Gemini.mkRawConstraint [Fin 0; Fin 2] LESS_THAN_EQ (Fin 12);
           Gemini.mkRawConstraint [Fin 3; Fin 2] LESS_THAN_EQ (Fin 18)])
       App.initial 1 _))) _).
  - simpl. lia.
  - reflexivity.
Defined.
